(** * Transcriber: speaker attribution, turn grouping and timestamps

    A shallow embedding of [tools/Transcriber/transcribe_audio.py]: the
    speaker resolver [get_speaker_at_time], the merge of Whisper segments with
    diarization segments, the timestamp formatter, the turn grouping of
    [format_transcription_diarized], and the mode selection of [save_outputs]
    and [main].

    Modelling conventions.
    - Times are Python floats in the source.  They are modelled as exact
      rationals ([Q]): the functions below only add, subtract, halve, compare,
      floor-divide and reduce modulo a constant, and none of the properties
      stated here is about rounding.  Two rationals denoting the same number
      ([Qeq]) stand for the same Python value.
    - A Python [str] is a [string]; its characters are read as code points
      below 256.
    - A call that may raise returns a [Py] value: [Returned v] or [Raised e].
    - The insertion-ordered [dict] of the resolver is an association list
      without repeated keys, in insertion order. *)

From Stdlib Require Import QArith Qabs Qround Qminmax ZArith List String Ascii.
From Stdlib Require Import Bool Lia Lqa Sorted Morphisms.
Import ListNotations.

Local Open Scope string_scope.
Local Open Scope list_scope.
Local Open Scope Q_scope.

(* ================================================================= *)
(** ** Python values and built-ins *)

Inductive exn : Type :=
| ValueError
| TypeError.

Inductive Py (A : Type) : Type :=
| Returned (v : A)
| Raised (e : exn).

Arguments Returned {A} v.
Arguments Raised {A} e.

Definition py_bind {A B : Type} (c : Py A) (k : A -> Py B) : Py B :=
  match c with
  | Returned v => k v
  | Raised e => Raised e
  end.

Notation "x <- c ;; k" := (py_bind c (fun x => k))
  (at level 61, c at next level, right associativity).

(** [a < b] on numbers. *)
Definition Qltb (a b : Q) : bool :=
  (Qnum a * QDen b <? Qnum b * QDen a)%Z.

(** [max(a, b)]: the first argument unless the second is strictly greater. *)
Definition py_max2 (a b : Q) : Q := if Qltb a b then b else a.

(** [min(a, b)]: the first argument unless the second is strictly smaller. *)
Definition py_min2 (a b : Q) : Q := if Qltb b a then b else a.

(** [x or default] on an optional string: [None] and [""] are falsy. *)
Definition py_or (x : option string) (default : string) : string :=
  match x with
  | None => default
  | Some "" => default
  | Some s => s
  end.

(** [max(keys, key=f)]: the first key whose value is not exceeded later.
    An empty iterable raises [ValueError]; a key whose value is [None]
    cannot be compared and raises [TypeError]. *)
Fixpoint max_loop (f : string -> option Q) (best : string) (best_val : Q)
         (rest : list string) : Py string :=
  match rest with
  | [] => Returned best
  | k :: rest' =>
      match f k with
      | None => Raised TypeError
      | Some v =>
          if Qltb best_val v then max_loop f k v rest'
          else max_loop f best best_val rest'
      end
  end.

Definition py_max_key (keys : list string) (f : string -> option Q) : Py string :=
  match keys with
  | [] => Raised ValueError
  | k :: rest =>
      match f k with
      | None => match rest with [] => Returned k | _ => Raised TypeError end
      | Some v => max_loop f k v rest
      end
  end.

(* ================================================================= *)
(** ** Insertion-ordered dictionaries from speaker labels to numbers *)

Definition Dict : Type := list (string * Q).

Fixpoint dict_get (d : Dict) (k : string) : option Q :=
  match d with
  | [] => None
  | (k', v) :: d' => if String.eqb k' k then Some v else dict_get d' k
  end.

(** [d.get(k, default)] *)
Definition dict_get_default (d : Dict) (k : string) (default : Q) : Q :=
  match dict_get d k with
  | Some v => v
  | None => default
  end.

(** [d[k] = v]: an existing key keeps its position, a new key goes last. *)
Fixpoint dict_set (d : Dict) (k : string) (v : Q) : Dict :=
  match d with
  | [] => [(k, v)]
  | (k', v') :: d' =>
      if String.eqb k' k then (k', v) :: d' else (k', v') :: dict_set d' k v
  end.

Definition dict_keys (d : Dict) : list string := map fst d.

(* ================================================================= *)
(** ** Segments *)

(** [{"start": float, "end": float, "speaker": str}] of [run_diarization]. *)
Record DiarizationSegment : Type := mkDiar {
  d_start : Q;
  d_end : Q;
  d_speaker : string
}.

(** A Whisper segment, [{"start", "end", "text"}]. *)
Record TranscriptionSegment : Type := mkTrans {
  t_start : Q;
  t_end : Q;
  t_text : string
}.

(** The dictionaries built by the merge and by the grouping loop,
    [{"speaker", "start", "end", "text"}]. *)
Record AttributedSegment : Type := mkAttr {
  a_speaker : string;
  a_start : Q;
  a_end : Q;
  a_text : string
}.

(* ================================================================= *)
(** ** [get_speaker_at_time] *)

Definition DEFAULT_SPEAKER : string := "SPEAKER_00".

(** The overlap of one diarization segment with the window, as the first
    loop computes it. *)
Definition overlap_duration (start end_ : Q) (seg : DiarizationSegment) : Q :=
  let overlap_start := py_max2 start (d_start seg) in
  let overlap_end := py_min2 end_ (d_end seg) in
  py_max2 0 (overlap_end - overlap_start).

(** Body of the first loop. *)
Definition overlap_step (start end_ : Q) (speaker_overlaps : Dict)
           (seg : DiarizationSegment) : Dict :=
  let overlap := overlap_duration start end_ seg in
  if Qltb 0 overlap then
    let speaker := d_speaker seg in
    dict_set speaker_overlaps speaker
             (dict_get_default speaker_overlaps speaker 0 + overlap)
  else speaker_overlaps.

(** [closest_distance]: a number or [float('inf')]. *)
Inductive Distance : Type :=
| Finite (q : Q)
| Infinite.

Definition dist_ltb (q : Q) (d : Distance) : bool :=
  match d with
  | Finite c => Qltb q c
  | Infinite => true
  end.

Definition seg_mid (seg : DiarizationSegment) : Q :=
  (d_start seg + d_end seg) / 2.

(** Body of the second loop, on [(closest_speaker, closest_distance)]. *)
Definition nearest_step (mid_time : Q) (st : option string * Distance)
           (seg : DiarizationSegment) : option string * Distance :=
  let distance := Qabs (mid_time - seg_mid seg) in
  if dist_ltb distance (snd st) then (Some (d_speaker seg), Finite distance)
  else st.

Definition get_speaker_at_time (diarization_segments : list DiarizationSegment)
           (start end_ : Q) : Py string :=
  match diarization_segments with
  | [] => Returned DEFAULT_SPEAKER
  | _ :: _ =>
      let speaker_overlaps :=
        fold_left (overlap_step start end_) diarization_segments [] in
      match speaker_overlaps with
      | [] =>
          let mid_time := (start + end_) / 2 in
          let closest :=
            fold_left (nearest_step mid_time) diarization_segments
                      (None, Infinite) in
          Returned (py_or (fst closest) DEFAULT_SPEAKER)
      | _ :: _ =>
          py_max_key (dict_keys speaker_overlaps) (dict_get speaker_overlaps)
      end
  end.

(* ================================================================= *)
(** ** Strings: [str.strip], [str.join], decimal rendering *)

(** [c.isspace()] for a code point below 256. *)
Definition py_isspace (c : ascii) : bool :=
  let n := nat_of_ascii c in
  ((9 <=? n) && (n <=? 13) || (28 <=? n) && (n <=? 32)
   || (n =? 133) || (n =? 160))%nat.

Fixpoint lstrip (s : string) : string :=
  match s with
  | "" => ""
  | String c s' => if py_isspace c then lstrip s' else s
  end.

Fixpoint rstrip (s : string) : string :=
  match s with
  | "" => ""
  | String c s' =>
      match rstrip s' with
      | "" => if py_isspace c then "" else String c ""
      | r => String c r
      end
  end.

(** [s.strip()] *)
Definition strip (s : string) : string := rstrip (lstrip s).

(** [sep.join(parts)] *)
Fixpoint py_join (sep : string) (parts : list string) : string :=
  match parts with
  | [] => ""
  | [p] => p
  | p :: rest => p ++ sep ++ py_join sep rest
  end.

Definition digit_char (d : Z) : ascii := ascii_of_nat (48 + Z.to_nat d).

Fixpoint dec_digits (fuel : nat) (n : Z) : string :=
  match fuel with
  | O => ""
  | S fuel' =>
      if (n <? 10)%Z then String (digit_char n) ""
      else dec_digits fuel' (n / 10) ++ String (digit_char (n mod 10)) ""
  end.

(** [str(n)] for an integer: every decimal digit costs at least one bit. *)
Definition str_of_Z (n : Z) : string :=
  if (n <? 0)%Z then "-" ++ dec_digits (S (Z.to_nat (Z.log2 (- n)))) (- n)
  else dec_digits (S (Z.to_nat (Z.log2 n))) n.

(** [f"{n:02d}"]: at least two characters, padded with zeros on the left. *)
Definition fmt_02d (n : Z) : string :=
  let s := str_of_Z n in
  if (String.length s <? 2)%nat then "0" ++ s else s.

Definition newline : string := String (ascii_of_nat 10) "".

(* ================================================================= *)
(** ** [merge_transcription_with_diarization] *)

(** The Whisper result, a dictionary whose keys may be absent. *)
Record WhisperResult : Type := mkWhisper {
  w_text : option string;
  w_segments : option (list TranscriptionSegment)
}.

(** [whisper_result.get("segments", [])] *)
Definition whisper_segments (r : WhisperResult) : list TranscriptionSegment :=
  match w_segments r with
  | Some segs => segs
  | None => []
  end.

(** Body of the loop: resolve the speaker, append one dictionary. *)
Definition merge_step (diarization_segments : list DiarizationSegment)
           (merged : list AttributedSegment) (segment : TranscriptionSegment)
  : Py (list AttributedSegment) :=
  speaker <- get_speaker_at_time diarization_segments
                                 (t_start segment) (t_end segment) ;;
  Returned (merged ++ [mkAttr speaker (t_start segment) (t_end segment)
                              (strip (t_text segment))]).

Fixpoint merge_loop (diarization_segments : list DiarizationSegment)
         (merged : list AttributedSegment)
         (segments : list TranscriptionSegment) : Py (list AttributedSegment) :=
  match segments with
  | [] => Returned merged
  | segment :: rest =>
      merged' <- merge_step diarization_segments merged segment ;;
      merge_loop diarization_segments merged' rest
  end.

Definition merge_transcription_with_diarization (whisper_result : WhisperResult)
           (diarization_segments : list DiarizationSegment)
  : Py (list AttributedSegment) :=
  merge_loop diarization_segments [] (whisper_segments whisper_result).

(* ================================================================= *)
(** ** [format_timestamp] *)

(** [x // y] *)
Definition py_floordiv (x y : Q) : Q := inject_Z (Qfloor (x / y)).

(** [x % y] *)
Definition py_mod (x y : Q) : Q := x - y * py_floordiv x y.

(** [int(x)]: truncation toward zero. *)
Definition py_int (x : Q) : Z := if Qltb x 0 then Qceiling x else Qfloor x.

Definition format_timestamp (seconds : Q) : string :=
  let hours := py_int (py_floordiv seconds 3600) in
  let minutes := py_int (py_floordiv (py_mod seconds 3600) 60) in
  let secs := py_int (py_mod seconds 60) in
  if (0 <? hours)%Z then
    str_of_Z hours ++ ":" ++ fmt_02d minutes ++ ":" ++ fmt_02d secs
  else
    str_of_Z minutes ++ ":" ++ fmt_02d secs.

(* ================================================================= *)
(** ** [format_transcription_diarized] *)

Definition open_group (seg : AttributedSegment) : AttributedSegment :=
  mkAttr (a_speaker seg) (a_start seg) (a_end seg) (a_text seg).

(** Body of the grouping loop, on [(grouped, current_group)]. *)
Definition group_step (st : list AttributedSegment * option AttributedSegment)
           (seg : AttributedSegment)
  : list AttributedSegment * option AttributedSegment :=
  let (grouped, current_group) := st in
  match current_group with
  | None => (grouped, Some (open_group seg))
  | Some g =>
      if String.eqb (a_speaker seg) (a_speaker g) then
        (grouped,
         Some (mkAttr (a_speaker g) (a_start g) (a_end seg)
                      (a_text g ++ " " ++ a_text seg)))
      else (grouped ++ [g], Some (open_group seg))
  end.

(** The list [grouped] after the loop and the final append. *)
Definition group_segments (merged_segments : list AttributedSegment)
  : list AttributedSegment :=
  let (grouped, current_group) :=
    fold_left group_step merged_segments ([], None) in
  match current_group with
  | Some g => grouped ++ [g]
  | None => grouped
  end.

Definition format_group (group : AttributedSegment) : string :=
  a_speaker group ++ " [" ++ format_timestamp (a_start group) ++ "]: "
            ++ a_text group.

Definition format_transcription_diarized
           (merged_segments : list AttributedSegment) : string :=
  match merged_segments with
  | [] => ""
  | _ :: _ =>
      py_join (newline ++ newline)
              (map format_group (group_segments merged_segments))
  end.

(* ================================================================= *)
(** ** [format_transcription_plain] *)

Definition is_sentence_end (c : ascii) : bool :=
  (Ascii.eqb c "." || Ascii.eqb c "!" || Ascii.eqb c "?")%char.

Definition is_upper_or_quote (c : ascii) : bool :=
  let n := nat_of_ascii c in
  ((65 <=? n) && (n <=? 90) || (n =? 34) || (n =? 39))%nat.

(** Does the tail of the pattern match at the start of [rest]: one or more
    whitespace characters, then (not consumed) an ASCII capital letter, a
    double quote or an apostrophe? *)
Definition break_follows (rest : string) : bool :=
  match rest with
  | "" => false
  | String w _ =>
      py_isspace w &&
      match lstrip rest with
      | "" => false
      | String u _ => is_upper_or_quote u
      end
  end.

(** The [re.sub] of the source, scanning left to right: a full stop,
    exclamation mark or question mark followed by such a tail keeps the mark
    and replaces the whitespace by two newlines.  [skipping] holds while the
    whitespace of a match is consumed. *)
Fixpoint plain_loop (skipping : bool) (text : string) : string :=
  match text with
  | "" => ""
  | String c rest =>
      if skipping && py_isspace c then plain_loop true rest
      else if is_sentence_end c && break_follows rest then
        String c (newline ++ newline ++ plain_loop true rest)
      else String c (plain_loop false rest)
  end.

Definition format_transcription_plain (text : string) : string :=
  plain_loop false text.

(* ================================================================= *)
(** ** [save_outputs] and [main] *)

(** The parts of [Path(audio_file_path)] the program reads. *)
Record AudioPath : Type := mkPath {
  p_parent : string;
  p_stem : string;
  p_suffix : string
}.

Definition p_name (p : AudioPath) : string := p_stem p ++ p_suffix p.

(** The file written by [save_outputs]. *)
Record OutputFile : Type := mkFile {
  f_dir : string;
  f_name : string;
  f_content : string
}.

(** [len(set(seg["speaker"] for seg in diarized_segments))] *)
Definition speaker_count (diarized_segments : list AttributedSegment) : nat :=
  List.length (nodup string_dec (map a_speaker diarized_segments)).

(** [transcription] is the Whisper dictionary or any other object, which is
    then rendered by [str]. *)
Definition plain_text (transcription : WhisperResult + string) : string :=
  match transcription with
  | inl r => strip (match w_text r with Some t => t | None => "" end)
  | inr s => strip s
  end.

(** [diarized_segments] is [None] when the argument is omitted; [now] is the
    rendered [datetime.now()]. *)
Definition save_outputs (audio_path : AudioPath) (now : string)
           (transcription : WhisperResult + string)
           (diarized_segments : option (list AttributedSegment)) : OutputFile :=
  let base_name := p_stem audio_path in
  let output_dir := p_parent audio_path in
  let truthy :=
    match diarized_segments with
    | Some (_ :: _) => true
    | _ => false
    end in
  let segs := match diarized_segments with Some l => l | None => [] end in
  let (formatted_content, suffix) :=
    if truthy then (format_transcription_diarized segs, "_diarized")
    else (format_transcription_plain (plain_text transcription),
          "_transcription") in
  mkFile output_dir (base_name ++ suffix ++ ".txt")
         ("TRANSCRIPTION" ++ newline ++ newline
          ++ "Audio File: " ++ p_name audio_path ++ newline
          ++ "Date: " ++ now ++ newline
          ++ (if truthy then
                "Speakers: " ++ str_of_Z (Z.of_nat (speaker_count segs))
                             ++ newline
              else "")
          ++ newline ++ "---" ++ newline ++ newline
          ++ formatted_content).

Definition SUPPORTED_FORMATS : list string :=
  [".mp3"; ".mp4"; ".mpeg"; ".mpga"; ".m4a"; ".wav"; ".webm"; ".ogg"; ".flac"].

(** What one run of [main] meets outside the program: the command line, the
    file system, the connector configuration and the two models. *)
Record Run : Type := mkRun {
  audio_file : AudioPath;
  file_exists : bool;
  (** [Path(audio_file_path).suffix.lower()] *)
  file_extension : string;
  enable_diarization : bool;
  (** [get_hf_token()] *)
  hf_token : option string;
  (** [run_diarization]: its segments, or [None] when it calls [sys.exit(1)] *)
  diarization : option (list DiarizationSegment);
  (** [transcribe_audio]: the Whisper result, or the exception it re-raises *)
  whisper : Py WhisperResult;
  clock : string
}.

Inductive Outcome : Type :=
| Exit (status : Z)
| Saved (file : OutputFile).

Definition main (r : Run) : Outcome :=
  if negb (file_exists r) then Exit 1
  else if negb (existsb (String.eqb (file_extension r)) SUPPORTED_FORMATS)
  then Exit 1
  else
    (* Step 1: diarization_segments, [None] unless requested *)
    let step1 : Outcome + option (list DiarizationSegment) :=
      if enable_diarization r then
        match hf_token r with
        | None | Some "" => inl (Exit 1)
        | Some _ =>
            match diarization r with
            | None => inl (Exit 1)
            | Some segs => inr (Some segs)
            end
        end
      else inr None in
    match step1 with
    | inl out => out
    | inr diarization_segments =>
        (* Steps 2 and 3, inside [try]; any exception exits with status 1 *)
        match whisper r with
        | Raised _ => Exit 1
        | Returned whisper_result =>
            match diarization_segments with
            | Some (seg :: segs) =>
                match merge_transcription_with_diarization
                        whisper_result (seg :: segs) with
                | Raised _ => Exit 1
                | Returned merged =>
                    Saved (save_outputs (audio_file r) (clock r)
                                        (inl whisper_result) (Some merged))
                end
            | _ =>
                Saved (save_outputs (audio_file r) (clock r)
                                    (inl whisper_result) None)
            end
        end
    end.

(* ================================================================= *)
(** * Vocabulary of the specification *)

(** Section 4.1, step 2: [max(0, min(end, seg.end) - max(start, seg.start))]. *)
Definition spec_overlap (start end_ : Q) (seg : DiarizationSegment) : Q :=
  Qmax 0 (Qmin end_ (d_end seg) - Qmax start (d_start seg)).

(** The overlap accumulated by one speaker label across all segments. *)
Fixpoint accumulated_overlap (segs : list DiarizationSegment)
         (start end_ : Q) (speaker : string) : Q :=
  match segs with
  | [] => 0
  | seg :: rest =>
      if String.eqb (d_speaker seg) speaker then
        spec_overlap start end_ seg + accumulated_overlap rest start end_ speaker
      else accumulated_overlap rest start end_ speaker
  end.





(** Section 3, SpeakerTurn: the maximal runs of consecutive segments that
    share a speaker. *)
Fixpoint runs (segs : list AttributedSegment) : list (list AttributedSegment) :=
  match segs with
  | [] => []
  | seg :: rest =>
      match runs rest with
      | (next :: run) :: more =>
          if String.eqb (a_speaker seg) (a_speaker next)
          then (seg :: next :: run) :: more
          else [seg] :: (next :: run) :: more
      | _ => [[seg]]
      end
  end.

(** The turn of a run: speaker and start of its first segment, end of its
    last segment, texts joined by single spaces. *)
Definition turn_of_run (run : list AttributedSegment) : AttributedSegment :=
  let first := hd (mkAttr "" 0 0 "") run in
  mkAttr (a_speaker first) (a_start first) (a_end (last run first))
         (py_join " " (map a_text run)).

(** Adjacent runs have different speakers. *)
Fixpoint speakers_alternate (rs : list (list AttributedSegment)) : Prop :=
  match rs with
  | r1 :: ((r2 :: _) as rest) =>
      a_speaker (turn_of_run r1) <> a_speaker (turn_of_run r2)
      /\ speakers_alternate rest
  | _ => True
  end.

Definition one_speaker (run : list AttributedSegment) : Prop :=
  run <> [] /\
  forall seg, In seg run -> a_speaker seg = a_speaker (turn_of_run run).

Definition starts_ascend (segs : list AttributedSegment) : Prop :=
  StronglySorted (fun a b => a_start a <= a_start b) segs.

Fixpoint all_space (s : string) : bool :=
  match s with
  | "" => true
  | String c s' => py_isspace c && all_space s'
  end.

Definition starts_with_space (s : string) : bool :=
  match s with
  | "" => false
  | String c _ => py_isspace c
  end.

Fixpoint ends_with_space (s : string) : bool :=
  match s with
  | "" => false
  | String c "" => py_isspace c
  | String _ s' => ends_with_space s'
  end.

(** [r] is [s] without its leading and trailing whitespace. *)
Definition stripped_of (s r : string) : Prop :=
  exists pre post : string,
    s = (pre ++ r ++ post)%string
    /\ all_space pre = true /\ all_space post = true
    /\ starts_with_space r = false /\ ends_with_space r = false.

(** What the merge makes of one transcription segment: start and end
    copied, text stripped, speaker resolved over the segment's window. *)
Definition attributed (diarization_segments : list DiarizationSegment)
           (seg : TranscriptionSegment) (out : AttributedSegment) : Prop :=
  a_start out = t_start seg
  /\ a_end out = t_end seg
  /\ a_text out = strip (t_text seg)
  /\ stripped_of (t_text seg) (a_text out)
  /\ get_speaker_at_time diarization_segments (t_start seg) (t_end seg)
     = Returned (a_speaker out).




Definition is_diarized_output (r : Run) (f : OutputFile) (n : nat)
           (body : string) : Prop :=
  f_name f = (p_stem (audio_file r) ++ "_diarized.txt")%string
  /\ f_content f =
       ("TRANSCRIPTION" ++ newline ++ newline
        ++ "Audio File: " ++ p_name (audio_file r) ++ newline
        ++ "Date: " ++ clock r ++ newline
        ++ "Speakers: " ++ str_of_Z (Z.of_nat n) ++ newline
        ++ newline ++ "---" ++ newline ++ newline ++ body)%string.

(* ================================================================= *)
(** * Notions used in the proofs *)

(** What the dictionary of the first loop holds after the loop has run over
    [segs]: no key twice, every key with the positive sum of its speaker's
    overlaps, and no key for a speaker without an overlapping segment. *)
Definition overlaps_recorded (start end_ : Q)
           (segs : list DiarizationSegment) (d : Dict) : Prop :=
  NoDup (dict_keys d) /\
  forall speaker,
    match dict_get d speaker with
    | Some v =>
        0 < v /\ v == accumulated_overlap segs start end_ speaker
        /\ exists seg, In seg segs /\ d_speaker seg = speaker
                       /\ 0 < spec_overlap start end_ seg
    | None =>
        accumulated_overlap segs start end_ speaker == 0
        /\ forall seg, In seg segs -> d_speaker seg = speaker ->
                       ~ 0 < spec_overlap start end_ seg
    end.




(** The loop extends the current group by one segment. *)
Definition extend (g seg : AttributedSegment) : AttributedSegment :=
  mkAttr (a_speaker g) (a_start g) (a_end seg) (a_text g ++ " " ++ a_text seg).

(** The groups that the loop still produces when the current group is [g]
    and [segs] remain. *)
Fixpoint absorb (g : AttributedSegment) (segs : list AttributedSegment)
  : list AttributedSegment :=
  match segs with
  | [] => [g]
  | seg :: rest =>
      if String.eqb (a_speaker seg) (a_speaker g)
      then absorb (extend g seg) rest
      else g :: absorb (open_group seg) rest
  end.

(* ================================================================= *)
(** * Inputs of the examples *)

(** Segments in which the speaker met first overlaps the window only with
    a later segment. *)
Definition late_overlap_segments : list DiarizationSegment :=
  [mkDiar 0 1 "A"; mkDiar 3 5 "B"; mkDiar 5 7 "A"].

(** A run with [--diarize] on a recording in which the diarization model
    finds no speaker turn: the connector is configured, [run_diarization]
    returns the empty list, Whisper returns two segments. *)
Definition no_turns_run : Run :=
  mkRun (mkPath "/recordings" "meeting" ".mp3") true ".mp3" true
        (Some "hf_token") (Some [])
        (Returned (mkWhisper (Some " Hello there. Good morning.")
                             (Some [mkTrans 0 2 " Hello there.";
                                    mkTrans 2 4 " Good morning."])))
        "2024-01-01 12:00:00".

(** A run with [--diarize] in which Whisper recognises no segment. *)
Definition no_speech_run : Run :=
  mkRun (mkPath "/recordings" "meeting" ".mp3") true ".mp3" true
        (Some "hf_token") (Some [mkDiar 0 5 "SPEAKER_00"])
        (Returned (mkWhisper (Some "") (Some [])))
        "2024-01-01 12:00:00".

(* ================================================================= *)
(** * More of the program *)

(** ** [get_hf_token] *)

Definition TOKEN_KEY : string := "HUGGINGFACE_API_TOKEN=".

(** [line.split('=', 1)]: the text before the first equals sign and, when
    there is one, the text after it. *)
Fixpoint split_once (line : string) : string * option string :=
  match line with
  | "" => ("", None)
  | String c rest =>
      if Ascii.eqb c "="%char then ("", Some rest)
      else let (before, after) := split_once rest in (String c before, after)
  end.

(** The loop over the lines of the [.env] file.  The first line that, once
    stripped, starts with the key ends the loop; a missing second part would
    raise inside [try], and the function then returns [None]. *)
Fixpoint token_loop (lines : list string) : option string :=
  match lines with
  | [] => None
  | line :: rest =>
      let line := strip line in
      if String.prefix TOKEN_KEY line then
        match snd (split_once line) with
        | Some value => Some (strip value)
        | None => None
        end
      else token_loop rest
  end.

(** [env_file] is [None] when the file does not exist or cannot be read,
    and the list of its lines otherwise. *)
Definition get_hf_token (env_file : option (list string)) : option string :=
  match env_file with
  | None => None
  | Some lines => token_loop lines
  end.

(* ================================================================= *)
(** * More vocabulary *)

(** The test of the first loop of the resolver: does the segment overlap
    the window? *)
Definition overlaps_window (start end_ : Q) (seg : DiarizationSegment) : bool :=
  Qltb 0 (overlap_duration start end_ seg).



(** The characters of a text that are not whitespace, in order. *)
Fixpoint non_space (s : string) : string :=
  match s with
  | "" => ""
  | String c s' => if py_isspace c then non_space s' else String c (non_space s')
  end.

Fixpoint no_sentence_end (s : string) : bool :=
  match s with
  | "" => true
  | String c s' => negb (is_sentence_end c) && no_sentence_end s'
  end.

(** The same run with another connector configuration and another outcome
    of the diarization model. *)
Definition with_diarization_setup (r : Run) (token : option string)
           (segments : option (list DiarizationSegment)) : Run :=
  mkRun (audio_file r) (file_exists r) (file_extension r)
        (enable_diarization r) token segments (whisper r) (clock r).


(* ================================================================= *)
(** * Numbers *)

Lemma Qltb_lt (a b : Q) : Qltb a b = true <-> a < b.
Proof. unfold Qltb, Qlt. apply Z.ltb_lt. Qed.

Lemma Qltb_ge (a b : Q) : Qltb a b = false <-> b <= a.
Proof. unfold Qltb, Qle. apply Z.ltb_ge. Qed.

Lemma Qltb_spec (a b : Q) : reflect (a < b) (Qltb a b).
Proof.
  destruct (Qltb a b) eqn:E; constructor.
  - now apply Qltb_lt.
  - apply Qltb_ge in E. now apply Qle_not_lt.
Qed.


Lemma py_max2_Qmax (a b : Q) : py_max2 a b = Qmax a b.
Proof.
  unfold py_max2, Qmax, GenericMinMax.gmax, Qltb, Qcompare.
  rewrite Z.ltb_compare.
  now destruct (Qnum a * QDen b ?= Qnum b * QDen a)%Z.
Qed.

Lemma py_min2_Qmin (a b : Q) : py_min2 a b = Qmin a b.
Proof.
  unfold py_min2, Qmin, GenericMinMax.gmin, Qltb, Qcompare.
  rewrite Z.ltb_compare, (Z.compare_antisym (Qnum a * QDen b)).
  now destruct (Qnum a * QDen b ?= Qnum b * QDen a)%Z.
Qed.

Lemma overlap_duration_spec (start end_ : Q) (seg : DiarizationSegment) :
  overlap_duration start end_ seg = spec_overlap start end_ seg.
Proof.
  unfold overlap_duration, spec_overlap.
  now rewrite !py_max2_Qmax, py_min2_Qmin.
Qed.

Lemma spec_overlap_nonneg (start end_ : Q) (seg : DiarizationSegment) :
  0 <= spec_overlap start end_ seg.
Proof. unfold spec_overlap. apply Q.le_max_l. Qed.

(* ================================================================= *)
(** * Dictionaries *)

Lemma dict_get_In (d : Dict) (k : string) :
  dict_get d k <> None <-> In k (dict_keys d).
Proof.
  induction d as [| [k' v'] d IH]; simpl.
  - tauto.
  - destruct (String.eqb_spec k' k) as [E | E].
    + split; [now left | discriminate].
    + rewrite IH. split; [now right | intros [H | H]; [contradiction | exact H]].
Qed.

Lemma dict_get_None (d : Dict) (k : string) :
  dict_get d k = None <-> ~ In k (dict_keys d).
Proof.
  rewrite <- dict_get_In. destruct (dict_get d k); split; intro H.
  - discriminate.
  - exfalso. apply H. discriminate.
  - intro H'. now apply H'.
  - reflexivity.
Qed.

Lemma dict_get_set_same (d : Dict) (k : string) (v : Q) :
  dict_get (dict_set d k v) k = Some v.
Proof.
  induction d as [| [k' v'] d IH]; simpl.
  - now rewrite String.eqb_refl.
  - destruct (String.eqb k' k) eqn:E; simpl; rewrite E; [reflexivity | exact IH].
Qed.

Lemma dict_get_set_other (d : Dict) (k k' : string) (v : Q) :
  k' <> k -> dict_get (dict_set d k v) k' = dict_get d k'.
Proof.
  intros Hne. induction d as [| [k0 v0] d IH]; simpl.
  - destruct (String.eqb_spec k k'); [congruence | reflexivity].
  - destruct (String.eqb_spec k0 k) as [E | E]; simpl.
    + subst k0. destruct (String.eqb_spec k k'); [congruence | reflexivity].
    + destruct (String.eqb k0 k'); [reflexivity | exact IH].
Qed.

(** Assignment keeps the keys in place and appends a new key. *)
Lemma dict_keys_set (d : Dict) (k : string) (v : Q) :
  dict_keys (dict_set d k v) =
  match dict_get d k with
  | Some _ => dict_keys d
  | None => dict_keys d ++ [k]
  end.
Proof.
  induction d as [| [k' v'] d IH]; simpl.
  - reflexivity.
  - destruct (String.eqb k' k) eqn:E; simpl.
    + reflexivity.
    + rewrite IH. now destruct (dict_get d k).
Qed.

Lemma dict_keys_set_NoDup (d : Dict) (k : string) (v : Q) :
  NoDup (dict_keys d) -> NoDup (dict_keys (dict_set d k v)).
Proof.
  intros H. rewrite dict_keys_set.
  destruct (dict_get d k) eqn:E; [exact H |].
  apply dict_get_None in E.
  apply NoDup_rev in H. rewrite <- (rev_involutive (dict_keys d ++ [k])).
  apply NoDup_rev. rewrite rev_app_distr. simpl.
  constructor; [now rewrite <- in_rev | exact H].
Qed.

(* ================================================================= *)
(** * The maximum of a dictionary *)

(** [max_loop] returns the first key, in iteration order, whose value no
    other key exceeds: keys before it are strictly smaller, keys after it
    are not greater. *)
Lemma max_loop_spec (f : string -> option Q) :
  forall (rest before after : list string) (best : string) (bv : Q),
    f best = Some bv ->
    (forall k, In k rest -> f k <> None) ->
    (forall k, In k before -> exists w, f k = Some w /\ w < bv) ->
    (forall k, In k after -> exists w, f k = Some w /\ w <= bv) ->
    exists r v ks1 ks2,
      max_loop f best bv rest = Returned r
      /\ f r = Some v
      /\ before ++ best :: after ++ rest = ks1 ++ r :: ks2
      /\ (forall k, In k ks1 -> exists w, f k = Some w /\ w < v)
      /\ (forall k, In k ks2 -> exists w, f k = Some w /\ w <= v).
Proof.
  induction rest as [| k rest IH]; intros before after best bv Hb Hrest Hbef Haft.
  - exists best, bv, before, after. simpl. rewrite app_nil_r. auto.
  - simpl. destruct (f k) as [w |] eqn:Ek.
    2:{ exfalso. apply (Hrest k); [now left | exact Ek]. }
    destruct (Qltb_spec bv w) as [Hlt | Hge].
    + destruct (IH (before ++ best :: after) [] k w Ek) as (r & v & ks1 & ks2 & H).
      * intros k' Hk'. apply Hrest. now right.
      * intros k' Hk'. apply in_app_or in Hk' as [Hk' | [Hk' | Hk']].
        -- destruct (Hbef _ Hk') as (w' & E' & L'). exists w'. split; [exact E' |].
           eapply Qlt_trans; eassumption.
        -- subst k'. exists bv. auto.
        -- destruct (Haft _ Hk') as (w' & E' & L'). exists w'. split; [exact E' |].
           eapply Qle_lt_trans; eassumption.
      * intros k' [].
      * exists r, v, ks1, ks2. simpl in H. rewrite <- app_assoc in H. exact H.
    + apply Qnot_lt_le in Hge.
      destruct (IH before (after ++ [k]) best bv Hb) as (r & v & ks1 & ks2 & H).
      * intros k' Hk'. apply Hrest. now right.
      * exact Hbef.
      * intros k' Hk'. apply in_app_or in Hk' as [Hk' | [Hk' | []]].
        -- now apply Haft.
        -- subst k'. exists w. auto.
      * exists r, v, ks1, ks2. rewrite <- app_assoc in H. exact H.
Qed.

Lemma py_max_key_spec (f : string -> option Q) (keys : list string) :
  keys <> [] ->
  (forall k, In k keys -> f k <> None) ->
  exists r v ks1 ks2,
    py_max_key keys f = Returned r
    /\ f r = Some v
    /\ keys = ks1 ++ r :: ks2
    /\ (forall k, In k ks1 -> exists w, f k = Some w /\ w < v)
    /\ (forall k, In k ks2 -> exists w, f k = Some w /\ w <= v).
Proof.
  destruct keys as [| k rest]; [congruence | intros _ Hall].
  simpl. destruct (f k) as [v |] eqn:Ek.
  2:{ exfalso. apply (Hall k); [now left | exact Ek]. }
  apply (max_loop_spec f rest [] [] k v Ek).
  - intros k' Hk'. apply Hall. now right.
  - intros k' [].
  - intros k' [].
Qed.

(* ================================================================= *)
(** * The overlap loop of the resolver *)

Section OverlapLoop.

Variables start end_ : Q.

Local Abbreviation ov := (spec_overlap start end_).
Local Abbreviation acc segs := (accumulated_overlap segs start end_).
Local Abbreviation loop segs := (fold_left (overlap_step start end_) segs []).

Lemma overlap_step_eq (d : Dict) (seg : DiarizationSegment) :
  overlap_step start end_ d seg =
  if Qltb 0 (ov seg) then
    dict_set d (d_speaker seg) (dict_get_default d (d_speaker seg) 0 + ov seg)
  else d.
Proof. unfold overlap_step. now rewrite overlap_duration_spec. Qed.

Lemma accumulated_snoc (segs : list DiarizationSegment)
      (seg : DiarizationSegment) (speaker : string) :
  acc (segs ++ [seg]) speaker ==
  acc segs speaker + (if String.eqb (d_speaker seg) speaker then ov seg else 0).
Proof.
  induction segs as [| s segs IH]; simpl.
  - destruct (String.eqb (d_speaker seg) speaker); lra.
  - destruct (String.eqb (d_speaker s) speaker); rewrite IH; lra.
Qed.

Lemma accumulated_nonneg (segs : list DiarizationSegment) (speaker : string) :
  0 <= acc segs speaker.
Proof.
  induction segs as [| s segs IH]; simpl; [lra |].
  destruct (String.eqb (d_speaker s) speaker); [| exact IH].
  pose proof (spec_overlap_nonneg start end_ s). lra.
Qed.

Lemma overlap_loop_recorded (segs : list DiarizationSegment) :
  overlaps_recorded start end_ segs (loop segs).
Proof.
  induction segs as [| x segs IH] using rev_ind.
  - split; [constructor |]. intros speaker. simpl. split; [reflexivity | tauto].
  - rewrite fold_left_app. simpl.
    set (d := fold_left (overlap_step start end_) segs []) in *.
    destruct IH as [Hnd IH]. rewrite overlap_step_eq.
    pose proof (spec_overlap_nonneg start end_ x) as Hx0.
    destruct (Qltb_spec 0 (ov x)) as [Hpos | Hnpos].
    + split; [now apply dict_keys_set_NoDup |].
      intros speaker. specialize (IH speaker).
      pose proof (accumulated_snoc segs x speaker) as Hsnoc.
      destruct (String.eqb_spec (d_speaker x) speaker) as [E | E].
      * subst speaker. rewrite dict_get_set_same. unfold dict_get_default.
        destruct (dict_get d (d_speaker x)) as [v |].
        -- destruct IH as (Hv & Hacc & _). repeat split.
           ++ lra.
           ++ rewrite Hsnoc, Hacc. reflexivity.
           ++ exists x. rewrite in_app_iff. simpl. auto.
        -- destruct IH as (Hacc & _). repeat split.
           ++ lra.
           ++ rewrite Hsnoc, Hacc. reflexivity.
           ++ exists x. rewrite in_app_iff. simpl. auto.
      * rewrite dict_get_set_other by congruence.
        destruct (dict_get d speaker) as [v |].
        -- destruct IH as (Hv & Hacc & seg & Hin & Hs & Hp). repeat split.
           ++ exact Hv.
           ++ rewrite Hsnoc, Hacc. lra.
           ++ exists seg. rewrite in_app_iff. auto.
        -- destruct IH as (Hacc & Hnone). split.
           ++ rewrite Hsnoc, Hacc. lra.
           ++ intros seg Hin Hs. apply in_app_or in Hin as [Hin | [Hin | []]].
              ** now apply Hnone.
              ** subst seg. contradiction.
    + split; [exact Hnd |].
      intros speaker. specialize (IH speaker).
      pose proof (accumulated_snoc segs x speaker) as Hsnoc.
      assert (Hz : (if String.eqb (d_speaker x) speaker then ov x else 0) == 0).
      { destruct (String.eqb (d_speaker x) speaker); lra. }
      rewrite Hz in Hsnoc.
      destruct (dict_get d speaker) as [v |].
      * destruct IH as (Hv & Hacc & seg & Hin & Hs & Hp). repeat split.
        -- exact Hv.
        -- rewrite Hsnoc, Hacc. lra.
        -- exists seg. rewrite in_app_iff. auto.
      * destruct IH as (Hacc & Hnone). split.
        -- rewrite Hsnoc, Hacc. lra.
        -- intros seg Hin Hs. apply in_app_or in Hin as [Hin | [Hin | []]].
           ++ now apply Hnone.
           ++ subst seg. exact Hnpos.
Qed.

(** The loop only appends keys. *)
Lemma overlap_loop_keys_grow (segs : list DiarizationSegment) (d : Dict) :
  exists extra,
    dict_keys (fold_left (overlap_step start end_) segs d) = dict_keys d ++ extra.
Proof.
  revert d. induction segs as [| x segs IH]; intros d; simpl.
  - exists []. now rewrite app_nil_r.
  - destruct (IH (overlap_step start end_ d x)) as [extra H].
    rewrite H, overlap_step_eq.
    destruct (Qltb 0 (ov x)); [| now exists extra].
    rewrite dict_keys_set. destruct (dict_get d (d_speaker x)).
    + now exists extra.
    + exists (d_speaker x :: extra). now rewrite <- app_assoc.
Qed.

(** The dictionary is empty exactly when no segment overlaps the window. *)
Lemma overlap_loop_empty (segs : list DiarizationSegment) :
  loop segs = [] <-> forall seg, In seg segs -> ~ 0 < ov seg.
Proof.
  destruct (overlap_loop_recorded segs) as [_ H]. split.
  - intros E seg Hin. specialize (H (d_speaker seg)). rewrite E in H.
    simpl in H. destruct H as [_ H]. now apply H.
  - intros Hnone. destruct (loop segs) as [| [k v] d] eqn:E; [reflexivity |].
    exfalso. specialize (H k). simpl in H. rewrite String.eqb_refl in H.
    destruct H as (_ & _ & seg & Hin & _ & Hp). exact (Hnone seg Hin Hp).
Qed.

End OverlapLoop.

(* ================================================================= *)
(** * Lists *)

(** The first element of a list that satisfies a test. *)
Lemma split_at_first {A : Type} (p : A -> bool) (l : list A) :
  (exists x, In x l /\ p x = true) ->
  exists pre x post,
    l = pre ++ x :: post /\ p x = true /\ forall y, In y pre -> p y = false.
Proof.
  induction l as [| a l IH]; intros (x & Hin & Hp); [destruct Hin |].
  destruct (p a) eqn:Ea.
  - exists [], a, l. repeat split; [exact Ea | intros y []].
  - destruct IH as (pre & y & post & El & Hy & Hpre).
    + destruct Hin as [-> | Hin]; [congruence | eauto].
    + exists (a :: pre), y, post. subst l. repeat split; [exact Hy |].
      intros z [<- | Hz]; auto.
Qed.

(** In a list without repetition an element splits the list in one way. *)
Lemma NoDup_split_unique {A : Type} (x : A) (l1 l2 l1' l2' : list A) :
  NoDup (l1 ++ x :: l2) -> l1 ++ x :: l2 = l1' ++ x :: l2' -> l1 = l1'.
Proof.
  revert l1'. induction l1 as [| a l1 IH]; intros l1' Hnd E; simpl in Hnd;
    apply NoDup_cons_iff in Hnd as [Hnot Hnd].
  - destruct l1' as [| a' l1']; [reflexivity |]. simpl in E.
    injection E as <- E. exfalso. apply Hnot. rewrite E. apply in_elt.
  - destruct l1' as [| a' l1']; simpl in E.
    + injection E as -> E. exfalso. apply Hnot. apply in_elt.
    + injection E as <- E. f_equal. now apply IH.
Qed.

(* ================================================================= *)
(** * The resolver *)

Section Resolver.

Variables start end_ : Q.

Local Abbreviation ov := (spec_overlap start end_).
Local Abbreviation acc segs := (accumulated_overlap segs start end_).
Local Abbreviation loop segs := (fold_left (overlap_step start end_) segs []).

(** The keys recorded before the first overlapping segment of a speaker
    are the keys that precede this speaker in the final dictionary. *)
Lemma overlap_loop_keys_before (pre post : list DiarizationSegment)
      (seg : DiarizationSegment) :
  0 < ov seg ->
  (forall s, In s pre -> d_speaker s = d_speaker seg -> ~ 0 < ov s) ->
  exists extra,
    dict_keys (loop (pre ++ seg :: post))
    = dict_keys (loop pre) ++ d_speaker seg :: extra.
Proof.
  intros Hpos Hpre. rewrite fold_left_app. simpl.
  set (d := fold_left (overlap_step start end_) pre []).
  destruct (overlap_loop_keys_grow start end_ post (overlap_step start end_ d seg))
    as [extra ->].
  exists extra. rewrite overlap_step_eq.
  rewrite (proj2 (Qltb_lt _ _) Hpos), dict_keys_set.
  destruct (overlap_loop_recorded start end_ pre) as [_ H].
  specialize (H (d_speaker seg)). fold d in H. cbv beta in H.
  destruct (dict_get d (d_speaker seg)).
  - exfalso. destruct H as (_ & _ & s & Hin & Hs & Hp). exact (Hpre s Hin Hs Hp).
  - now rewrite <- app_assoc.
Qed.

(** The two branches of the resolver on a non-empty sequence. *)
Lemma get_speaker_at_time_overlap (segs : list DiarizationSegment) :
  loop segs <> [] ->
  get_speaker_at_time segs start end_
  = py_max_key (dict_keys (loop segs)) (dict_get (loop segs)).
Proof.
  intros Hne. unfold get_speaker_at_time.
  destruct segs as [| s0 segs']; [now contradiction Hne |].
  now destruct (loop (s0 :: segs')).
Qed.

Lemma get_speaker_at_time_nearest (segs : list DiarizationSegment) :
  segs <> [] -> loop segs = [] ->
  get_speaker_at_time segs start end_
  = Returned (py_or (fst (fold_left (nearest_step ((start + end_) / 2)) segs
                                    (None, Infinite)))
                    DEFAULT_SPEAKER).
Proof.
  intros Hne Hloop. unfold get_speaker_at_time.
  destruct segs as [| s0 segs']; [now contradiction Hne |].
  now rewrite Hloop.
Qed.

(** The case of the resolver in which some segment overlaps the window. *)
Lemma resolver_overlap_case (segs : list DiarizationSegment) :
  (exists seg, In seg segs /\ 0 < ov seg) ->
  exists r,
    get_speaker_at_time segs start end_ = Returned r
    /\ (forall speaker, acc segs speaker <= acc segs r)
    /\ exists pre seg post,
        segs = pre ++ seg :: post /\ d_speaker seg = r /\ 0 < ov seg
        /\ forall s, In s pre -> 0 < ov s -> acc segs (d_speaker s) < acc segs r.
Proof.
  intros (seg0 & Hin0 & Hpos0).
  destruct (overlap_loop_recorded start end_ segs) as [Hnd Hrec].
  assert (Hne : loop segs <> []).
  { intros E. exact (proj1 (overlap_loop_empty start end_ segs) E seg0 Hin0 Hpos0). }
  rewrite (get_speaker_at_time_overlap segs Hne).
  destruct (py_max_key_spec (dict_get (loop segs)) (dict_keys (loop segs)))
    as (r & v & ks1 & ks2 & Hret & Hr & Hkeys & Hks1 & Hks2).
  { unfold dict_keys. intros E. apply map_eq_nil in E. contradiction. }
  { intros k Hk. now apply dict_get_In. }
  exists r. split; [exact Hret |].
  pose proof (Hrec r) as Hrr. rewrite Hr in Hrr.
  destruct Hrr as (Hv & Hvacc & sr & Hinr & Hsr & Hposr).
  split.
  - intros speaker. specialize (Hrec speaker).
    destruct (dict_get (loop segs) speaker) as [w |] eqn:Ew.
    + destruct Hrec as (_ & Hwacc & _). rewrite <- Hwacc, <- Hvacc.
      assert (Hk : In speaker (dict_keys (loop segs))).
      { apply dict_get_In. congruence. }
      rewrite Hkeys in Hk. apply in_app_or in Hk as [Hk | [Hk | Hk]].
      * destruct (Hks1 _ Hk) as (w' & E' & L'). rewrite Ew in E'.
        injection E' as <-. now apply Qlt_le_weak.
      * subst speaker. rewrite Ew in Hr. injection Hr as <-. apply Qle_refl.
      * destruct (Hks2 _ Hk) as (w' & E' & L'). rewrite Ew in E'.
        now injection E' as <-.
    + destruct Hrec as (Hz & _). rewrite Hz, <- Hvacc. now apply Qlt_le_weak.
  - destruct (split_at_first
                (fun s => String.eqb (d_speaker s) r && Qltb 0 (ov s)) segs)
      as (pre & seg & post & Esegs & Hseg & Hpre).
    { exists sr. split; [exact Hinr |]. apply andb_true_intro. split.
      - now apply String.eqb_eq.
      - now apply Qltb_lt. }
    apply andb_prop in Hseg as [Hr' Hp']. apply String.eqb_eq in Hr'.
    apply Qltb_lt in Hp'.
    exists pre, seg, post. repeat split; try assumption.
    intros s Hs Hsp.
    destruct (overlap_loop_keys_before pre post seg Hp') as [extra Hbefore].
    { intros s' Hs' E' Hp. specialize (Hpre s' Hs').
      rewrite Hr' in E'. apply String.eqb_eq in E'.
      rewrite E', (proj2 (Qltb_lt _ _) Hp) in Hpre. discriminate. }
    rewrite <- Esegs, Hr', Hkeys in Hbefore.
    assert (Eks : ks1 = dict_keys (loop pre)).
    { eapply NoDup_split_unique; [| exact Hbefore]. now rewrite <- Hkeys. }
    destruct (overlap_loop_recorded start end_ pre) as [_ Hrecpre].
    specialize (Hrecpre (d_speaker s)).
    assert (Hk : In (d_speaker s) ks1).
    { rewrite Eks. apply dict_get_In.
      destruct (dict_get (loop pre) (d_speaker s)); [discriminate |].
      exfalso. destruct Hrecpre as [_ Hnone]. exact (Hnone s Hs eq_refl Hsp). }
    destruct (Hks1 _ Hk) as (w & Ew & Lw).
    specialize (Hrec (d_speaker s)). rewrite Ew in Hrec.
    destruct Hrec as (_ & Hwacc & _). now rewrite <- Hwacc, <- Hvacc.
Qed.






(** Whatever the branch, the resolver returns, and its label is the default
    label or the label of a segment. *)
Lemma nearest_loop_label (mid : Q) (segs : list DiarizationSegment)
      (st : option string * Distance) :
  fst (fold_left (nearest_step mid) segs st) = fst st
  \/ exists seg, In seg segs
                 /\ fst (fold_left (nearest_step mid) segs st)
                    = Some (d_speaker seg).
Proof.
  revert st. induction segs as [| x segs IH]; intros st; cbn [fold_left];
    [now left |].
  destruct (IH (nearest_step mid st x)) as [E | (seg & Hin & E)].
  - destruct (dist_ltb (Qabs (mid - seg_mid x)) (snd st)) eqn:D.
    + right. exists x. split; [now left |].
      rewrite E. unfold nearest_step. now rewrite D.
    + left. rewrite E. unfold nearest_step. now rewrite D.
  - right. exists seg. split; [now right | exact E].
Qed.

Lemma py_or_label (x : option string) (default : string) :
  py_or x default = default \/ x = Some (py_or x default).
Proof. destruct x as [[| c s] |]; simpl; auto. Qed.

Lemma resolver_returns_label (segs : list DiarizationSegment) :
  exists label,
    get_speaker_at_time segs start end_ = Returned label
    /\ (label = DEFAULT_SPEAKER \/ In label (map d_speaker segs)).
Proof.
  destruct segs as [| s0 rest] eqn:Esegs; [exists DEFAULT_SPEAKER; auto |].
  rewrite <- Esegs. assert (Hne : segs <> []) by congruence. clear Esegs.
  destruct (loop segs) as [| kv d] eqn:Eloop.
  - rewrite (get_speaker_at_time_nearest segs Hne Eloop).
    eexists. split; [reflexivity |].
    set (closest := fst (fold_left (nearest_step ((start + end_) / 2)) segs
                                   (None, Infinite))).
    destruct (py_or_label closest DEFAULT_SPEAKER) as [E | E]; [now left |].
    remember (py_or closest DEFAULT_SPEAKER) as label eqn:El. clear El.
    destruct (nearest_loop_label ((start + end_) / 2) segs (None, Infinite))
      as [E' | (seg & Hin & E')]; fold closest in E'; rewrite E' in E.
    + discriminate.
    + right. injection E as <-. now apply in_map.
  - assert (Hne' : loop segs <> []) by congruence.
    rewrite (get_speaker_at_time_overlap segs Hne').
    destruct (py_max_key_spec (dict_get (loop segs)) (dict_keys (loop segs)))
      as (r & v & ks1 & ks2 & Hret & Hr & _).
    { unfold dict_keys. intros E. apply map_eq_nil in E. contradiction. }
    { intros k Hk. now apply dict_get_In. }
    exists r. split; [exact Hret |]. right.
    destruct (overlap_loop_recorded start end_ segs) as [_ Hrec].
    specialize (Hrec r). cbv beta in Hrec. rewrite Hr in Hrec.
    destruct Hrec as (_ & _ & seg & Hin & <- & _). now apply in_map.
Qed.

End Resolver.

(* ================================================================= *)
(** * Claims about the resolver *)







(** C3: on an empty diarization sequence the resolver returns the default
    label SPEAKER_00, whatever the window. *)
Theorem resolver_empty_default :
  forall start end_ : Q, get_speaker_at_time [] start end_ = Returned "SPEAKER_00".
Proof. reflexivity. Qed.

(** C9: the label returned by the resolver is the default label SPEAKER_00
    or the speaker of one of the given segments. *)
Theorem resolver_label_origin :
  forall (segs : list DiarizationSegment) (start end_ : Q),
  exists label,
    get_speaker_at_time segs start end_ = Returned label
    /\ (label = "SPEAKER_00" \/ In label (map d_speaker segs)).
Proof. intros. apply resolver_returns_label. Qed.

(* ================================================================= *)
(** * The resolver depends on the numbers only *)

















(* ================================================================= *)
(** * Stripping and merging *)

Lemma lstrip_spec (s : string) :
  exists pre : string,
    s = (pre ++ lstrip s)%string
    /\ all_space pre = true /\ starts_with_space (lstrip s) = false.
Proof.
  induction s as [| c s (pre & E & Hpre & Hs)]; simpl.
  - now exists "".
  - destruct (py_isspace c) eqn:Ec.
    + exists (String c pre). simpl. rewrite Ec, Hpre, <- E. auto.
    + exists "". simpl. auto.
Qed.

Lemma rstrip_spec (s : string) :
  exists post : string,
    s = (rstrip s ++ post)%string
    /\ all_space post = true /\ ends_with_space (rstrip s) = false.
Proof.
  induction s as [| c s (post & E & Hpost & Hs)]; simpl.
  - now exists "".
  - destruct (rstrip s) as [| c' r] eqn:Er.
    + simpl in E. subst post. destruct (py_isspace c) eqn:Ec.
      * exists (String c s). simpl. rewrite Ec, Hpost. auto.
      * exists s. simpl. auto.
    + exists post. rewrite E at 1. auto.
Qed.

Lemma rstrip_keeps_start (s : string) :
  starts_with_space s = false -> starts_with_space (rstrip s) = false.
Proof.
  destruct s as [| c s]; simpl; [auto |]. intros Hc.
  destruct (rstrip s); [now rewrite Hc | exact Hc].
Qed.

Lemma strip_spec (s : string) : stripped_of s (strip s).
Proof.
  destruct (lstrip_spec s) as (pre & E & Hpre & Hstart).
  destruct (rstrip_spec (lstrip s)) as (post & E' & Hpost & Hend).
  exists pre, post. unfold strip. rewrite <- E', <- E.
  repeat split; auto using rstrip_keeps_start.
Qed.

Lemma merge_loop_spec (diar : list DiarizationSegment) :
  forall (segs : list TranscriptionSegment) (merged : list AttributedSegment),
  exists out,
    merge_loop diar merged segs = Returned (merged ++ out)
    /\ Forall2 (attributed diar) segs out.
Proof.
  induction segs as [| seg segs IH]; intros merged; simpl.
  - exists []. rewrite app_nil_r. auto.
  - unfold merge_step.
    destruct (resolver_returns_label (t_start seg) (t_end seg) diar)
      as (label & Hl & _).
    rewrite Hl. simpl.
    destruct (IH (merged ++ [mkAttr label (t_start seg) (t_end seg)
                                    (strip (t_text seg))]))
      as (out & Hout & Hall).
    exists (mkAttr label (t_start seg) (t_end seg) (strip (t_text seg)) :: out).
    split.
    + rewrite Hout, <- app_assoc. reflexivity.
    + constructor; [| exact Hall].
      unfold attributed. simpl. auto using strip_spec.
Qed.

Lemma merge_one_per_segment_aux (whisper_result : WhisperResult)
      (diarization_segments : list DiarizationSegment) :
  exists merged,
    merge_transcription_with_diarization whisper_result diarization_segments
    = Returned merged
    /\ List.length merged = List.length (whisper_segments whisper_result).
Proof.
  unfold merge_transcription_with_diarization.
  destruct (merge_loop_spec diarization_segments
                            (whisper_segments whisper_result) [])
    as (out & Hout & Hall).
  exists out. split; [exact Hout |].
  symmetry. eapply Forall2_length. exact Hall.
Qed.


(* ================================================================= *)
(** * The grouping loop *)

Lemma open_group_id (seg : AttributedSegment) : open_group seg = seg.
Proof. now destruct seg. Qed.

Lemma group_loop_absorb :
  forall (segs grouped : list AttributedSegment) (g : AttributedSegment),
    (let (grouped', current) := fold_left group_step segs (grouped, Some g) in
     match current with
     | Some g' => grouped' ++ [g']
     | None => grouped'
     end) = grouped ++ absorb g segs.
Proof.
  induction segs as [| seg rest IH]; intros grouped g; simpl.
  - reflexivity.
  - destruct (String.eqb (a_speaker seg) (a_speaker g)).
    + apply IH.
    + rewrite IH, <- app_assoc. reflexivity.
Qed.

Lemma group_segments_cons (seg : AttributedSegment)
      (rest : list AttributedSegment) :
  group_segments (seg :: rest) = absorb seg rest.
Proof.
  unfold group_segments. simpl.
  rewrite (group_loop_absorb rest [] (open_group seg)), open_group_id.
  reflexivity.
Qed.

Lemma string_app_assoc (a b c : string) :
  ((a ++ b) ++ c = a ++ (b ++ c))%string.
Proof. induction a as [| x a IH]; simpl; [reflexivity | now rewrite IH]. Qed.

Lemma py_join_merge_head (sep a b : string) (l : list string) :
  py_join sep ((a ++ sep ++ b)%string :: l) = py_join sep (a :: b :: l).
Proof.
  destruct l as [| c l]; [reflexivity |].
  cbn [py_join]. now rewrite !string_app_assoc.
Qed.

Lemma last_cons_default {A : Type} (a d : A) (l : list A) :
  last (a :: l) d = last l a.
Proof.
  revert a d. induction l as [| b l IH]; intros a d; [reflexivity |].
  change (last (a :: b :: l) d) with (last (b :: l) d).
  rewrite IH. symmetry. apply IH.
Qed.

(** A group extended by a run: speaker and start stay, the end is the end
    of the last segment, the texts are joined by single spaces. *)
Lemma extend_run (run : list AttributedSegment) :
  forall g,
    fold_left extend run g
    = mkAttr (a_speaker g) (a_start g) (a_end (last run g))
             (py_join " " (a_text g :: map a_text run)).
Proof.
  induction run as [| seg run IH]; intros g.
  - now destruct g.
  - cbn [fold_left]. rewrite IH. cbn [extend a_speaker a_start a_text map].
    rewrite py_join_merge_head.
    assert (E : a_end (last run (extend g seg)) = a_end (last (seg :: run) g)).
    { destruct run as [| s run]; [reflexivity |].
      change (last (seg :: s :: run) g) with (last (s :: run) g).
      now rewrite !last_cons_default. }
    now rewrite E.
Qed.

Lemma turn_of_run_cons (seg : AttributedSegment)
      (run : list AttributedSegment) :
  turn_of_run (seg :: run) = fold_left extend run seg.
Proof.
  rewrite extend_run. unfold turn_of_run. cbn [hd map].
  now rewrite last_cons_default.
Qed.

Lemma turn_of_run_single (seg : AttributedSegment) : turn_of_run [seg] = seg.
Proof. now rewrite turn_of_run_cons. Qed.

Lemma runs_head_nonempty (segs : list AttributedSegment)
      (more : list (list AttributedSegment)) :
  runs segs <> [] :: more.
Proof.
  destruct segs as [| seg rest]; simpl; [discriminate |].
  destruct (runs rest) as [| [| ? ?] ?]; try destruct (String.eqb _ _);
    discriminate.
Qed.

(** Every non-empty sequence has a first run, and it starts with the first
    segment. *)
Lemma runs_cons (seg : AttributedSegment) (rest : list AttributedSegment) :
  exists run more,
    runs (seg :: rest) = (seg :: run) :: more
    /\ (run = [] /\ more = runs rest
        /\ match more with
           | (next :: _) :: _ => a_speaker seg <> a_speaker next
           | _ => True
           end
        \/ exists next run', run = next :: run'
                             /\ a_speaker seg = a_speaker next
                             /\ runs rest = (next :: run') :: more).
Proof.
  simpl. destruct (runs rest) as [| [| next run'] more] eqn:E.
  - exists [], []. auto.
  - now apply runs_head_nonempty in E.
  - destruct (String.eqb_spec (a_speaker seg) (a_speaker next)) as [Es | Es].
    + exists (next :: run'), more. split; [reflexivity |]. right. eauto.
    + exists [], ((next :: run') :: more). split; [reflexivity |]. left. auto.
Qed.

(** The loop produces the turns of the maximal runs. *)
Lemma absorb_runs :
  forall (segs : list AttributedSegment) (g : AttributedSegment),
    absorb g segs =
    match runs segs with
    | (next :: run) :: more =>
        if String.eqb (a_speaker next) (a_speaker g)
        then fold_left extend (next :: run) g :: map turn_of_run more
        else g :: map turn_of_run (runs segs)
    | _ => [g]
    end.
Proof.
  induction segs as [| seg rest IH]; intros g; [reflexivity |].
  assert (Hopen : absorb (open_group seg) rest
                  = map turn_of_run (runs (seg :: rest))).
  { rewrite IH, open_group_id. simpl runs.
    destruct (runs rest) as [| [| next run] more]; cbn [map];
      rewrite ?turn_of_run_single; try reflexivity.
    rewrite (String.eqb_sym (a_speaker next)).
    destruct (String.eqb (a_speaker seg) (a_speaker next)); cbn [map].
    - now rewrite turn_of_run_cons.
    - now rewrite turn_of_run_single. }
  cbn [absorb].
  destruct (runs_cons seg rest) as (run & more & Eruns & Hshape).
  rewrite Eruns.
  destruct (String.eqb_spec (a_speaker seg) (a_speaker g)) as [Eg | Eg].
  - rewrite IH. cbn [fold_left].
    destruct Hshape as [(-> & -> & Hnext) | (next & run' & -> & Enext & Erest)].
    + pose proof (runs_head_nonempty rest) as Hhead.
      destruct (runs rest) as [| [| next run'] more']; try reflexivity.
      { now contradiction (Hhead more'). }
      cbn [a_speaker extend].
      destruct (String.eqb_spec (a_speaker next) (a_speaker g)); [congruence |].
      reflexivity.
    + rewrite Erest. cbn [a_speaker extend].
      destruct (String.eqb_spec (a_speaker next) (a_speaker g)); [| congruence].
      reflexivity.
  - rewrite Hopen, Eruns. reflexivity.
Qed.

Lemma group_segments_runs (segs : list AttributedSegment) :
  group_segments segs = map turn_of_run (runs segs).
Proof.
  destruct segs as [| seg rest]; [reflexivity |].
  rewrite group_segments_cons, <- (open_group_id seg) at 1.
  rewrite absorb_runs, open_group_id. simpl runs.
  destruct (runs rest) as [| [| next run] more]; cbn [map];
    rewrite ?turn_of_run_single; try reflexivity.
  rewrite (String.eqb_sym (a_speaker next)).
  destruct (String.eqb (a_speaker seg) (a_speaker next)); cbn [map].
  - now rewrite turn_of_run_cons.
  - now rewrite turn_of_run_single.
Qed.

(** The runs partition the sequence, each run has one speaker, and
    adjacent runs have different speakers. *)
Lemma runs_partition (segs : list AttributedSegment) :
  List.concat (runs segs) = segs
  /\ Forall one_speaker (runs segs)
  /\ speakers_alternate (runs segs).
Proof.
  induction segs as [| seg rest (Hcat & Hone & Halt)]; simpl.
  - repeat split. constructor.
  - pose proof (runs_head_nonempty rest) as Hhead.
    destruct (runs rest) as [| [| next run] more].
    + simpl in Hcat. subst rest. repeat split.
      * constructor; [| constructor]. split; [discriminate |].
        now intros s [<- | []].
    + now contradiction (Hhead more).
    + clear Hhead. apply Forall_cons_iff in Hone as [[_ Hnext] Hone].
      change (a_speaker (turn_of_run (next :: run))) with (a_speaker next)
        in Hnext.
      destruct (String.eqb_spec (a_speaker seg) (a_speaker next)) as [E | E].
      * split; [| split].
        -- simpl. simpl in Hcat. now rewrite Hcat.
        -- constructor; [| exact Hone]. split; [discriminate |].
           change (a_speaker (turn_of_run (seg :: next :: run)))
             with (a_speaker seg).
           intros s [<- | Hs]; [reflexivity |]. rewrite E. now apply Hnext.
        -- destruct more as [| r2 more']; [exact I |].
           destruct Halt as [Hne Halt]. split; [| exact Halt].
           change (a_speaker (turn_of_run (seg :: next :: run)))
             with (a_speaker seg).
           now rewrite E.
      * split; [| split].
        -- simpl. simpl in Hcat. now rewrite Hcat.
        -- constructor; [| constructor; [| exact Hone]].
           ++ split; [discriminate |]. now intros s [<- | []].
           ++ split; [discriminate | exact Hnext].
        -- split; [exact E | exact Halt].
Qed.

(** The start of a produced group is the start of the current group or of
    a remaining segment. *)
Lemma absorb_starts :
  forall (segs : list AttributedSegment) (g t : AttributedSegment),
    In t (absorb g segs) ->
    a_start t = a_start g \/ exists s, In s segs /\ a_start t = a_start s.
Proof.
  induction segs as [| seg rest IH]; intros g t Ht; simpl in Ht.
  - destruct Ht as [<- | []]. now left.
  - destruct (String.eqb (a_speaker seg) (a_speaker g)).
    + destruct (IH _ _ Ht) as [E | (s & Hs & E)].
      * now left.
      * right. exists s. split; [now right | exact E].
    + destruct Ht as [<- | Ht]; [now left |].
      right. destruct (IH _ _ Ht) as [E | (s & Hs & E)].
      * exists seg. split; [now left | now rewrite E, open_group_id].
      * exists s. split; [now right | exact E].
Qed.

Lemma absorb_ascend :
  forall (segs : list AttributedSegment) (g : AttributedSegment),
    starts_ascend segs ->
    (forall s, In s segs -> a_start g <= a_start s) ->
    starts_ascend (absorb g segs).
Proof.
  unfold starts_ascend.
  induction segs as [| seg rest IH]; intros g Hsorted Hg; simpl.
  - constructor; constructor.
  - apply StronglySorted_inv in Hsorted as [Hrest Hseg].
    rewrite Forall_forall in Hseg.
    destruct (String.eqb (a_speaker seg) (a_speaker g)).
    + apply IH; [exact Hrest |]. intros s Hs. apply Hg. now right.
    + constructor.
      * apply IH; [exact Hrest |]. intros s Hs. rewrite open_group_id.
        now apply Hseg.
      * apply Forall_forall. intros t Ht.
        destruct (absorb_starts _ _ _ Ht) as [E | (s & Hs & E)]; rewrite E.
        -- rewrite open_group_id. apply Hg. now left.
        -- apply Hg. now right.
Qed.

Lemma group_segments_ascend (segs : list AttributedSegment) :
  starts_ascend segs -> starts_ascend (group_segments segs).
Proof.
  destruct segs as [| seg rest]; intros Hsorted; [constructor |].
  rewrite group_segments_cons.
  apply StronglySorted_inv in Hsorted as [Hrest Hseg].
  rewrite Forall_forall in Hseg. now apply absorb_ascend.
Qed.

(* ================================================================= *)
(** * Claims about the turns *)

(** C4: the grouping loop produces, in one pass from left to right, the
    turns of the maximal runs of consecutive segments with one speaker: the
    runs partition the input in order, every run has a single speaker,
    adjacent runs have different speakers, and the turn of a run has the
    run's speaker, the start of its first segment, the end of its last
    segment and the texts joined by single spaces.  The segments
    (0,2,hi,A), (2,4,there,A), (4,6,bye,B) give the two turns
    (A,0,4,hi there) and (B,4,6,bye). *)
Theorem turns_are_maximal_runs :
  forall segs : list AttributedSegment,
    group_segments segs = map turn_of_run (runs segs)
    /\ List.concat (runs segs) = segs
    /\ Forall one_speaker (runs segs)
    /\ speakers_alternate (runs segs)
    /\ group_segments [mkAttr "A" 0 2 "hi"; mkAttr "A" 2 4 "there";
                       mkAttr "B" 4 6 "bye"]
       = [mkAttr "A" 0 4 "hi there"; mkAttr "B" 4 6 "bye"].
Proof.
  intros segs. split; [apply group_segments_runs |].
  destruct (runs_partition segs) as (Hcat & Hone & Halt).
  repeat split; assumption.
Qed.

(** C5: when the attributed segments come in ascending start order, the
    turns come in non-decreasing start order; the input splits, in order and
    without loss or repetition, into non-empty runs with one turn each; and
    an empty input gives no turn and the empty transcript. *)
Theorem turns_ordered_and_complete :
  forall segs : list AttributedSegment,
    starts_ascend segs ->
    starts_ascend (group_segments segs)
    /\ (exists rs,
           List.concat rs = segs
           /\ Forall (fun run => run <> []) rs
           /\ group_segments segs = map turn_of_run rs
           /\ List.length (group_segments segs) = List.length rs)
    /\ group_segments [] = []
    /\ format_transcription_diarized [] = "".
Proof.
  intros segs Hsorted. split; [now apply group_segments_ascend |].
  split; [| split; reflexivity].
  destruct (runs_partition segs) as (Hcat & Hone & _).
  exists (runs segs). split; [exact Hcat |]. split; [| split].
  - eapply Forall_impl; [| exact Hone]. now intros run [Hne _].
  - apply group_segments_runs.
  - rewrite group_segments_runs. apply length_map.
Qed.

(** The theorem on the three segments of the turn-merging example. *)
Lemma turns_ordered_and_complete_witness :
  starts_ascend
    (group_segments [mkAttr "A" 0 2 "hi"; mkAttr "A" 2 4 "there";
                     mkAttr "B" 4 6 "bye"]).
Proof.
  apply turns_ordered_and_complete.
  repeat constructor; discriminate.
Defined.

(* ================================================================= *)
(** * Timestamps *)





















(* ================================================================= *)
(** * Which file a run writes *)

(** C6 fails on the code: with diarization enabled, a run whose diarization
    or whose transcription has no segment writes the plain-mode file
    meeting_transcription.txt, without a speaker count, and not
    meeting_diarized.txt. *)
Theorem diarize_run_writes_plain_file :
  enable_diarization no_turns_run = true
  /\ enable_diarization no_speech_run = true
  /\ main no_turns_run
     = Saved (mkFile "/recordings" "meeting_transcription.txt"
                     ("TRANSCRIPTION" ++ newline ++ newline
                      ++ "Audio File: meeting.mp3" ++ newline
                      ++ "Date: 2024-01-01 12:00:00" ++ newline
                      ++ newline ++ "---" ++ newline ++ newline
                      ++ "Hello there." ++ newline ++ newline
                      ++ "Good morning."))
  /\ main no_speech_run
     = Saved (mkFile "/recordings" "meeting_transcription.txt"
                     ("TRANSCRIPTION" ++ newline ++ newline
                      ++ "Audio File: meeting.mp3" ++ newline
                      ++ "Date: 2024-01-01 12:00:00" ++ newline
                      ++ newline ++ "---" ++ newline ++ newline)).
Proof. repeat split. Qed.

(** What the run does write when both models return segments: the
    diarized file, with the speaker count in its header. *)
Lemma main_diarized_output (r : Run) (f : OutputFile)
      (segs : list DiarizationSegment) (w : WhisperResult) :
  enable_diarization r = true ->
  diarization r = Some segs -> segs <> [] ->
  whisper r = Returned w -> whisper_segments w <> [] ->
  main r = Saved f ->
  exists merged,
    merge_transcription_with_diarization w segs = Returned merged
    /\ is_diarized_output r f (speaker_count merged)
                          (format_transcription_diarized merged).
Proof.
  intros Hen Hd Hsegs Hw Hws Hmain. unfold main in Hmain.
  destruct (negb (file_exists r)); [discriminate |].
  destruct (negb (existsb _ SUPPORTED_FORMATS)); [discriminate |].
  rewrite Hen, Hd, Hw in Hmain.
  destruct (hf_token r) as [[| c tok] |]; try discriminate.
  destruct segs as [| seg segs]; [congruence |].
  destruct (merge_one_per_segment_aux w (seg :: segs)) as (merged & Hm & Hlen).
  rewrite Hm in Hmain. exists merged. split; [exact Hm |].
  destruct merged as [| m merged].
  - exfalso. apply Hws. now destruct (whisper_segments w).
  - injection Hmain as <-. split; [reflexivity |].
    unfold save_outputs. cbn [f_content]. now rewrite !string_app_assoc.
Qed.

(* ================================================================= *)
(** * More about timestamps *)














(* ================================================================= *)
(** * More about the resolver *)

Lemma overlaps_window_iff (start end_ : Q) (seg : DiarizationSegment) :
  overlaps_window start end_ seg = true <-> 0 < spec_overlap start end_ seg.
Proof.
  unfold overlaps_window. rewrite overlap_duration_spec. apply Qltb_lt.
Qed.

Lemma overlap_step_skip (start end_ : Q) (d : Dict) (seg : DiarizationSegment) :
  overlaps_window start end_ seg = false -> overlap_step start end_ d seg = d.
Proof. unfold overlaps_window, overlap_step. now intros ->. Qed.

(** The first loop sees only the segments that overlap the window. *)
Lemma overlap_loop_filter (start end_ : Q) (segs : list DiarizationSegment) :
  forall d,
    fold_left (overlap_step start end_)
              (filter (overlaps_window start end_) segs) d
    = fold_left (overlap_step start end_) segs d.
Proof.
  induction segs as [| seg segs IH]; intros d; simpl; [reflexivity |].
  destruct (overlaps_window start end_ seg) eqn:E; simpl.
  - apply IH.
  - rewrite overlap_step_skip by exact E. apply IH.
Qed.

Lemma overlap_loop_nonempty (start end_ : Q) (segs : list DiarizationSegment) :
  (exists seg, In seg segs /\ overlaps_window start end_ seg = true) ->
  fold_left (overlap_step start end_) segs [] <> [].
Proof.
  intros (seg & Hin & Hov) E.
  apply overlaps_window_iff in Hov.
  exact (proj1 (overlap_loop_empty start end_ segs) E seg Hin Hov).
Qed.




(** X4: when every segment that overlaps the window belongs to one speaker,
    and some segment does overlap, the resolver returns that speaker,
    whatever the other segments are. *)
Theorem resolver_single_overlapping_speaker :
  forall (segs : list DiarizationSegment) (start end_ : Q) (speaker : string),
    (exists seg, In seg segs /\ overlaps_window start end_ seg = true) ->
    (forall seg, In seg segs -> overlaps_window start end_ seg = true ->
                 d_speaker seg = speaker) ->
    get_speaker_at_time segs start end_ = Returned speaker.
Proof.
  intros segs start end_ speaker (seg0 & Hin0 & Hov0) Hone.
  destruct (resolver_overlap_case start end_ segs)
    as (r & Hr & _ & pre & seg & post & E & Hs & Hpos & _).
  { exists seg0. split; [exact Hin0 | now apply overlaps_window_iff]. }
  rewrite Hr, <- Hs. f_equal. apply Hone.
  - rewrite E. apply in_elt.
  - now apply overlaps_window_iff.
Qed.

Lemma resolver_single_overlapping_speaker_witness :
  get_speaker_at_time [mkDiar 0 1 "A"; mkDiar 3 5 "B"; mkDiar 9 12 "A"] 4 6
  = Returned "B".
Proof.
  apply resolver_single_overlapping_speaker.
  - exists (mkDiar 3 5 "B"). split; [right; left; reflexivity | reflexivity].
  - intros seg [<- | [<- | [<- | []]]]; intros H;
      try reflexivity; discriminate H.
Defined.

(** X5: when some segment overlaps the window, the segments that do not
    overlap it have no influence: the resolver returns the same label on the
    overlapping segments alone. *)
Theorem resolver_ignores_non_overlapping :
  forall (segs : list DiarizationSegment) (start end_ : Q),
    (exists seg, In seg segs /\ overlaps_window start end_ seg = true) ->
    get_speaker_at_time (filter (overlaps_window start end_) segs) start end_
    = get_speaker_at_time segs start end_.
Proof.
  intros segs start end_ Hov.
  pose proof (overlap_loop_nonempty start end_ segs Hov) as Hne.
  rewrite (get_speaker_at_time_overlap start end_ segs Hne).
  pose proof (overlap_loop_filter start end_ segs []) as Ef.
  rewrite get_speaker_at_time_overlap; rewrite Ef; [reflexivity | exact Hne].
Qed.

Lemma resolver_ignores_non_overlapping_witness :
  get_speaker_at_time
    (filter (overlaps_window 3 7) late_overlap_segments) 3 7
  = get_speaker_at_time late_overlap_segments 3 7.
Proof.
  apply resolver_ignores_non_overlapping.
  exists (mkDiar 3 5 "B"). split; [right; left; reflexivity | reflexivity].
Defined.




(* ================================================================= *)
(** * More about the turns *)

(** Turns, read as segments again, are runs of their own. *)
Lemma runs_of_turns (rs : list (list AttributedSegment)) :
  speakers_alternate rs ->
  runs (map turn_of_run rs) = map (fun run => [turn_of_run run]) rs.
Proof.
  induction rs as [| r1 rest IH]; intros Halt; [reflexivity |].
  cbn [map runs].
  destruct rest as [| r2 rest']; [reflexivity |].
  destruct Halt as [Hne Halt]. rewrite (IH Halt). cbn [map].
  destruct (String.eqb_spec (a_speaker (turn_of_run r1))
                            (a_speaker (turn_of_run r2)));
    [contradiction | reflexivity].
Qed.

(** X7: grouping is idempotent: the turns, grouped again, are the same
    turns. *)
Theorem group_segments_idempotent :
  forall segs : list AttributedSegment,
    group_segments (group_segments segs) = group_segments segs.
Proof.
  intros segs. rewrite !group_segments_runs.
  destruct (runs_partition segs) as (_ & _ & Halt).
  rewrite (runs_of_turns _ Halt), map_map.
  apply map_ext. intros run. apply turn_of_run_single.
Qed.

Lemma py_join_app (sep : string) (l1 l2 : list string) :
  l1 <> [] -> l2 <> [] ->
  py_join sep (l1 ++ l2) = (py_join sep l1 ++ sep ++ py_join sep l2)%string.
Proof.
  intros H1 H2. induction l1 as [| a l1 IH]; [congruence |].
  destruct l1 as [| a' l1].
  - destruct l2 as [| b l2]; [congruence | reflexivity].
  - change (py_join sep ((a :: a' :: l1) ++ l2))
      with (a ++ sep ++ py_join sep ((a' :: l1) ++ l2))%string.
    rewrite IH by discriminate.
    change (py_join sep (a :: a' :: l1))
      with (a ++ sep ++ py_join sep (a' :: l1))%string.
    now rewrite !string_app_assoc.
Qed.

(** Joining the joined texts of the runs joins all the texts. *)
Lemma py_join_runs (rs : list (list AttributedSegment)) :
  Forall (fun run => run <> []) rs ->
  py_join " " (map a_text (map turn_of_run rs))
  = py_join " " (map a_text (List.concat rs)).
Proof.
  induction 1 as [| r rest Hr Hrest IH]; [reflexivity |].
  destruct rest as [| r2 rest'].
  - simpl. now rewrite app_nil_r.
  - change (py_join " " (map a_text (map turn_of_run (r :: r2 :: rest'))))
      with (a_text (turn_of_run r) ++ " "
            ++ py_join " " (map a_text (map turn_of_run (r2 :: rest'))))%string.
    rewrite IH.
    change (List.concat (r :: r2 :: rest'))
      with (r ++ List.concat (r2 :: rest')).
    rewrite map_app,
      (py_join_app " " (map a_text r)
                   (map a_text (List.concat (r2 :: rest')))).
    + reflexivity.
    + destruct r; [congruence | discriminate].
    + apply Forall_inv in Hrest. destruct r2; [congruence | discriminate].
Qed.

Lemma absorb_first (segs : list AttributedSegment) :
  forall g, exists turn more,
    absorb g segs = turn :: more
    /\ a_start turn = a_start g
    /\ a_end (last more turn) = a_end (last segs g).
Proof.
  induction segs as [| seg rest IH]; intros g.
  - exists g, []. auto.
  - cbn [absorb]. rewrite last_cons_default.
    destruct (String.eqb (a_speaker seg) (a_speaker g)).
    + destruct (IH (extend g seg)) as (turn & more & E & Hs & He).
      exists turn, more. split; [exact E |]. split; [exact Hs |].
      rewrite He. destruct rest as [| s rest]; [reflexivity |].
      now rewrite !last_cons_default.
    + destruct (IH (open_group seg)) as (turn & more & E & Hs & He).
      exists g, (turn :: more). rewrite E. split; [reflexivity |].
      split; [reflexivity |].
      rewrite last_cons_default, He, open_group_id. reflexivity.
Qed.

(** X8: grouping loses nothing: the texts of the turns, joined by single
    spaces, are the texts of the segments joined by single spaces; the
    first turn starts where the first segment starts and the last turn ends
    where the last segment ends. *)
Theorem group_segments_keeps_text_and_span :
  forall (first : AttributedSegment) (rest : list AttributedSegment),
    py_join " " (map a_text (group_segments (first :: rest)))
    = py_join " " (map a_text (first :: rest))
    /\ exists turn more,
        group_segments (first :: rest) = turn :: more
        /\ a_start turn = a_start first
        /\ a_end (last more turn) = a_end (last rest first).
Proof.
  intros first rest. split.
  - rewrite group_segments_runs.
    destruct (runs_partition (first :: rest)) as (Hcat & Hone & _).
    rewrite py_join_runs, Hcat; [reflexivity |].
    eapply Forall_impl; [| exact Hone]. now intros run [Hne _].
  - rewrite group_segments_cons. apply absorb_first.
Qed.

Lemma absorb_speakers (segs : list AttributedSegment) :
  forall g s,
    In s (map a_speaker (absorb g segs))
    <-> s = a_speaker g \/ In s (map a_speaker segs).
Proof.
  induction segs as [| seg rest IH]; intros g s; cbn [absorb map].
  - simpl. intuition congruence.
  - destruct (String.eqb_spec (a_speaker seg) (a_speaker g)) as [E | E].
    + rewrite IH. cbn [extend a_speaker In]. rewrite E. intuition congruence.
    + cbn [map In]. rewrite IH, open_group_id. intuition congruence.
Qed.

Lemma absorb_length (segs : list AttributedSegment) :
  forall g, (List.length (absorb g segs) <= S (List.length segs))%nat.
Proof.
  induction segs as [| seg rest IH]; intros g; cbn [absorb]; [simpl; lia |].
  destruct (String.eqb (a_speaker seg) (a_speaker g)).
  - specialize (IH (extend g seg)). simpl. lia.
  - specialize (IH (open_group seg)). simpl. lia.
Qed.

Lemma nodup_length_incl (l1 l2 : list string) :
  incl l1 l2 ->
  (List.length (nodup string_dec l1) <= List.length (nodup string_dec l2))%nat.
Proof.
  intros H. apply NoDup_incl_length; [apply NoDup_nodup |].
  intros s Hs. apply nodup_In. apply H. now apply nodup_In in Hs.
Qed.

(** X9: the speaker count of the file header is the number of distinct
    speakers of the turns as well as of the segments; for a non-empty
    sequence it is at least one, at most the number of turns, which is at
    most the number of segments. *)
Theorem speaker_count_of_turns :
  forall segs : list AttributedSegment,
    speaker_count (group_segments segs) = speaker_count segs
    /\ (speaker_count segs <= List.length (group_segments segs))%nat
    /\ (List.length (group_segments segs) <= List.length segs)%nat
    /\ (segs = [] \/ (1 <= speaker_count segs)%nat).
Proof.
  intros segs.
  assert (Hsame : forall s, In s (map a_speaker (group_segments segs))
                            <-> In s (map a_speaker segs)).
  { destruct segs as [| seg rest]; [reflexivity |]. intros s.
    rewrite group_segments_cons, absorb_speakers. simpl.
    intuition congruence. }
  assert (Hcount : speaker_count (group_segments segs) = speaker_count segs).
  { unfold speaker_count. apply Nat.le_antisymm; apply nodup_length_incl;
      intros s Hs; now apply Hsame. }
  split; [exact Hcount |]. split; [| split].
  - rewrite <- Hcount. unfold speaker_count.
    rewrite <- (length_map a_speaker (group_segments segs)).
    apply NoDup_incl_length; [apply NoDup_nodup |].
    intros s Hs. now apply nodup_In in Hs.
  - destruct segs as [| seg rest]; [simpl; lia |].
    rewrite group_segments_cons. pose proof (absorb_length rest seg).
    simpl. lia.
  - destruct segs as [| seg rest]; [now left | right].
    unfold speaker_count.
    assert (Hin : In (a_speaker seg)
                     (nodup string_dec (map a_speaker (seg :: rest)))).
    { apply nodup_In. now left. }
    destruct (nodup string_dec (map a_speaker (seg :: rest)));
      [destruct Hin | simpl; lia].
Qed.

Lemma absorb_app (l1 : list AttributedSegment) :
  forall (g y : AttributedSegment) (l2 : list AttributedSegment),
    a_speaker (last l1 g) <> a_speaker y ->
    absorb g (l1 ++ y :: l2) = absorb g l1 ++ absorb y l2.
Proof.
  induction l1 as [| x l1 IH]; intros g y l2 Hne.
  - simpl in *. destruct (String.eqb_spec (a_speaker y) (a_speaker g));
      [congruence | now rewrite open_group_id].
  - rewrite last_cons_default in Hne. cbn [app absorb].
    destruct (String.eqb_spec (a_speaker x) (a_speaker g)) as [E | E].
    + apply IH. destruct l1 as [| x' l1]; [simpl in *; congruence |].
      now rewrite last_cons_default in *.
    + rewrite IH; [reflexivity |]. rewrite open_group_id.
      destruct l1 as [| x' l1]; [exact Hne |].
      now rewrite last_cons_default in *.
Qed.

(** X10: grouping splits at a change of speaker: when the segment that ends
    one part and the segment that begins the next have different speakers,
    the turns of the whole are the turns of the first part followed by the
    turns of the second. *)
Theorem group_segments_app :
  forall (l1 l2 : list AttributedSegment) (x y : AttributedSegment),
    a_speaker x <> a_speaker y ->
    group_segments ((l1 ++ [x]) ++ y :: l2)
    = group_segments (l1 ++ [x]) ++ group_segments (y :: l2).
Proof.
  intros l1 l2 x y Hne.
  destruct (l1 ++ [x]) as [| a l] eqn:E.
  - destruct l1; discriminate.
  - cbn [app]. rewrite !group_segments_cons. apply absorb_app.
    assert (Hlast : last (a :: l) a = x).
    { rewrite <- E. apply last_last. }
    rewrite last_cons_default in Hlast.
    destruct l as [| b l]; [simpl in *; congruence |].
    rewrite last_cons_default in *. congruence.
Qed.

Lemma group_segments_app_witness :
  group_segments (([mkAttr "A" 0 2 "hi"] ++ [mkAttr "A" 2 4 "there"])
                    ++ mkAttr "B" 4 6 "bye" :: [mkAttr "B" 6 7 "now"])
  = group_segments ([mkAttr "A" 0 2 "hi"] ++ [mkAttr "A" 2 4 "there"])
    ++ group_segments (mkAttr "B" 4 6 "bye" :: [mkAttr "B" 6 7 "now"]).
Proof. apply group_segments_app. discriminate. Defined.

Lemma absorb_first_speaker (segs : list AttributedSegment) :
  forall g, a_speaker (hd g (absorb g segs)) = a_speaker g.
Proof.
  induction segs as [| seg rest IH]; intros g; cbn [absorb]; [reflexivity |].
  destruct (String.eqb (a_speaker seg) (a_speaker g)); [| reflexivity].
  specialize (IH (extend g seg)).
  destruct (absorb_first rest (extend g seg)) as (turn & more & E & _).
  rewrite E in *. exact IH.
Qed.

(** X11: the diarized transcript of a non-empty sequence opens with the
    speaker of the first segment and the timestamp of its start. *)
Theorem diarized_transcript_opening :
  forall (first : AttributedSegment) (rest : list AttributedSegment),
  exists tail : string,
    format_transcription_diarized (first :: rest)
    = (a_speaker first ++ " [" ++ format_timestamp (a_start first) ++ "]: "
       ++ tail)%string.
Proof.
  intros first rest. unfold format_transcription_diarized.
  rewrite group_segments_cons.
  destruct (absorb_first rest first) as (turn & more & E & Hs & _).
  pose proof (absorb_first_speaker rest first) as Hsp.
  rewrite E in *. cbn [hd map] in *. unfold format_group at 1.
  rewrite Hs, Hsp.
  destruct more as [| t more]; cbn [map py_join].
  - eexists. reflexivity.
  - eexists. rewrite !string_app_assoc. reflexivity.
Qed.

Lemma group_segments_nonempty (seg : AttributedSegment)
      (rest : list AttributedSegment) :
  group_segments (seg :: rest) <> [].
Proof.
  rewrite group_segments_cons.
  destruct (absorb_first rest seg) as (turn & more & -> & _). discriminate.
Qed.

(** X12: diarized transcripts compose at a change of speaker: when the last
    segment of one part and the first segment of the next have different
    speakers, the transcript of the whole is the transcript of the first
    part, a blank line, and the transcript of the second part. *)
Theorem diarized_transcript_app :
  forall (l1 l2 : list AttributedSegment) (x y : AttributedSegment),
    a_speaker x <> a_speaker y ->
    format_transcription_diarized ((l1 ++ [x]) ++ y :: l2)
    = (format_transcription_diarized (l1 ++ [x])
       ++ (newline ++ newline)
       ++ format_transcription_diarized (y :: l2))%string.
Proof.
  intros l1 l2 x y Hne.
  assert (Hsplit : group_segments ((l1 ++ [x]) ++ y :: l2)
                   = group_segments (l1 ++ [x]) ++ group_segments (y :: l2)).
  { destruct (l1 ++ [x]) as [| a l] eqn:E; [destruct l1; discriminate |].
    cbn [app]. rewrite !group_segments_cons. apply absorb_app.
    assert (Hlast : last (a :: l) a = x) by (rewrite <- E; apply last_last).
    rewrite last_cons_default in Hlast.
    destruct l as [| b l]; [simpl in *; congruence |].
    rewrite last_cons_default in *. congruence. }
  unfold format_transcription_diarized. rewrite Hsplit.
  destruct (l1 ++ [x]) as [| a l] eqn:E; [destruct l1; discriminate |].
  cbn [app]. rewrite map_app. apply py_join_app.
  - pose proof (group_segments_nonempty a l) as H.
    destruct (group_segments (a :: l)); [congruence | discriminate].
  - pose proof (group_segments_nonempty y l2) as H.
    destruct (group_segments (y :: l2)); [congruence | discriminate].
Qed.

Lemma diarized_transcript_app_witness :
  format_transcription_diarized
    (([mkAttr "A" 0 2 "hi"] ++ [mkAttr "A" 2 4 "there"])
       ++ mkAttr "B" 4 6 "bye" :: [])
  = (format_transcription_diarized
       ([mkAttr "A" 0 2 "hi"] ++ [mkAttr "A" 2 4 "there"])
     ++ (newline ++ newline)
     ++ format_transcription_diarized (mkAttr "B" 4 6 "bye" :: []))%string.
Proof. apply diarized_transcript_app. discriminate. Defined.




(* ================================================================= *)
(** * The plain transcript *)

Lemma non_space_newlines (s : string) :
  non_space (newline ++ newline ++ s) = non_space s.
Proof. reflexivity. Qed.

Lemma plain_loop_non_space (text : string) :
  forall skipping, non_space (plain_loop skipping text) = non_space text.
Proof.
  induction text as [| c rest IH]; intros skipping; [reflexivity |].
  cbn [plain_loop non_space].
  destruct (py_isspace c) eqn:Ec.
  - destruct skipping; cbn [andb]; [apply IH |].
    destruct (is_sentence_end c && break_follows rest); cbn [non_space];
      rewrite Ec, ?non_space_newlines; apply IH.
  - rewrite andb_false_r.
    destruct (is_sentence_end c && break_follows rest); cbn [non_space];
      rewrite Ec, ?non_space_newlines, IH; reflexivity.
Qed.

(** X14: the plain reflow only touches whitespace: the characters of the
    formatted text that are not whitespace are those of the text, in the
    same order. *)
Theorem format_transcription_plain_keeps_characters :
  forall text : string,
    non_space (format_transcription_plain text) = non_space text.
Proof. intros text. apply plain_loop_non_space. Qed.

(** X15: a text without full stop, exclamation mark or question mark is
    returned unchanged by the plain reflow. *)
Theorem format_transcription_plain_without_sentence_end :
  forall text : string,
    no_sentence_end text = true -> format_transcription_plain text = text.
Proof.
  unfold format_transcription_plain.
  induction text as [| c rest IH]; intros H; [reflexivity |].
  simpl in H. apply andb_prop in H as [Hc Hrest].
  apply negb_true_iff in Hc. cbn [plain_loop andb]. rewrite Hc.
  cbn [andb]. now rewrite IH.
Qed.

Lemma format_transcription_plain_without_sentence_end_witness :
  format_transcription_plain "no punctuation  Here" = "no punctuation  Here".
Proof.
  apply format_transcription_plain_without_sentence_end. reflexivity.
Defined.

Lemma sentence_end_not_space (c : ascii) :
  is_sentence_end c = true -> py_isspace c = false.
Proof.
  unfold is_sentence_end. intros H.
  apply orb_prop in H as [H | H]; [apply orb_prop in H as [H | H] |];
    apply Ascii.eqb_eq in H; subst c; reflexivity.
Qed.

Lemma upper_or_quote_not_space (c : ascii) :
  is_upper_or_quote c = true -> py_isspace c = false.
Proof.
  unfold is_upper_or_quote, py_isspace.
  set (n := nat_of_ascii c). intros H.
  destruct (Nat.leb_spec 9 n), (Nat.leb_spec n 13), (Nat.leb_spec 28 n),
    (Nat.leb_spec n 32), (Nat.eqb_spec n 133), (Nat.eqb_spec n 160);
    try reflexivity; exfalso;
    destruct (Nat.leb_spec 65 n), (Nat.leb_spec n 90), (Nat.eqb_spec n 34),
      (Nat.eqb_spec n 39); simpl in H; try discriminate; lia.
Qed.

(** While the whitespace of a match is consumed, the loop behaves as on
    the text without its leading whitespace. *)
Lemma plain_loop_skipping (text : string) :
  plain_loop true text = plain_loop false (lstrip text).
Proof.
  induction text as [| c rest IH]; [reflexivity |].
  cbn [plain_loop lstrip andb]. destruct (py_isspace c) eqn:Ec.
  - exact IH.
  - cbn [plain_loop andb]. reflexivity.
Qed.

Lemma plain_loop_lstrip (text : string) :
  lstrip (plain_loop false text) = plain_loop false (lstrip text).
Proof.
  induction text as [| c rest IH]; [reflexivity |].
  cbn [plain_loop lstrip andb]. destruct (py_isspace c) eqn:Ec.
  - destruct (is_sentence_end c) eqn:Es.
    + apply sentence_end_not_space in Es. congruence.
    + cbn [andb lstrip]. now rewrite Ec.
  - cbn [plain_loop andb].
    destruct (is_sentence_end c && break_follows rest); cbn [lstrip];
      now rewrite Ec.
Qed.

Lemma plain_loop_head (text : string) :
  match plain_loop false text, text with
  | String c _, String c' _ => c = c'
  | "", "" => True
  | _, _ => False
  end.
Proof.
  destruct text as [| c rest]; [exact I |].
  cbn [plain_loop andb].
  now destruct (is_sentence_end c && break_follows rest).
Qed.

Lemma break_follows_plain_loop (text : string) :
  break_follows (plain_loop false text) = break_follows text.
Proof.
  unfold break_follows. rewrite plain_loop_lstrip.
  pose proof (plain_loop_head text) as H1.
  pose proof (plain_loop_head (lstrip text)) as H2.
  destruct (plain_loop false text) as [| p ps], text as [| c rest];
    try contradiction; [reflexivity |]. subst p. f_equal.
  destruct (plain_loop false (lstrip (String c rest))) as [| q qs],
    (lstrip (String c rest)) as [| u us];
    try contradiction; [reflexivity | now subst].
Qed.

Lemma lstrip_length (s : string) :
  (String.length (lstrip s) <= String.length s)%nat.
Proof.
  induction s as [| c s IH]; simpl; [lia |].
  destruct (py_isspace c); simpl; lia.
Qed.

Lemma plain_loop_idempotent_bounded (n : nat) :
  forall text,
    (String.length text <= n)%nat ->
    plain_loop false (plain_loop false text) = plain_loop false text.
Proof.
  induction n as [| n IH]; intros text Hlen.
  - destruct text; [reflexivity | simpl in Hlen; lia].
  - destruct text as [| c rest]; [reflexivity |].
    simpl in Hlen. cbn [plain_loop andb].
    destruct (is_sentence_end c && break_follows rest) eqn:Ematch.
    + apply andb_prop in Ematch as [Hend Hbreak].
      rewrite plain_loop_skipping.
      assert (Hrest : plain_loop false (plain_loop false (lstrip rest))
                      = plain_loop false (lstrip rest)).
      { apply IH. pose proof (lstrip_length rest). lia. }
      set (tail := plain_loop false (lstrip rest)) in *.
      assert (Htail : lstrip tail = tail
                      /\ match tail with
                         | "" => False
                         | String u _ => is_upper_or_quote u = true
                         end).
      { unfold break_follows in Hbreak.
        destruct rest as [| w rest']; [discriminate |].
        apply andb_prop in Hbreak as [_ Hupper].
        pose proof (plain_loop_head (lstrip (String w rest'))) as Hhead.
        fold tail in Hhead.
        destruct (lstrip (String w rest')) as [| u after]; [discriminate |].
        destruct tail as [| u' after']; [contradiction |]. subst u'.
        split; [| exact Hupper].
        cbn [lstrip]. now rewrite (upper_or_quote_not_space u Hupper). }
      destruct Htail as [Hstrip Hupper].
      cbn [plain_loop andb]. rewrite Hend.
      assert (Hagain : break_follows (newline ++ newline ++ tail) = true).
      { unfold break_follows.
        change (lstrip (newline ++ newline ++ tail)) with (lstrip tail).
        rewrite Hstrip. destruct tail; [contradiction | exact Hupper]. }
      rewrite Hagain. cbn [andb]. rewrite plain_loop_skipping.
      change (lstrip (newline ++ newline ++ tail)) with (lstrip tail).
      now rewrite Hstrip, Hrest.
    + cbn [plain_loop andb]. rewrite break_follows_plain_loop, Ematch.
      f_equal. apply IH. lia.
Qed.

(** X16: the plain reflow is idempotent: a text that has been formatted is
    left unchanged when it is formatted again. *)
Theorem format_transcription_plain_idempotent :
  forall text : string,
    format_transcription_plain (format_transcription_plain text)
    = format_transcription_plain text.
Proof.
  intros text. unfold format_transcription_plain.
  now apply (plain_loop_idempotent_bounded (String.length text)).
Qed.

(* ================================================================= *)
(** * More about the runs *)

Lemma supported_format_iff (extension : string) :
  existsb (String.eqb extension) SUPPORTED_FORMATS = true
  <-> In extension SUPPORTED_FORMATS.
Proof.
  rewrite existsb_exists. split.
  - intros (x & Hin & E). apply String.eqb_eq in E. now subst.
  - intros H. exists extension. split; [exact H | apply String.eqb_refl].
Qed.


(** X18: without [--diarize] the connector and the diarization model play
    no part: the run is the same whatever token and diarization outcome are
    there, and the file it writes is the plain one. *)
Theorem plain_run_ignores_diarization_setup :
  forall r : Run,
    enable_diarization r = false ->
    (forall token segments, main (with_diarization_setup r token segments) = main r)
    /\ forall f, main r = Saved f ->
                 f_name f = (p_stem (audio_file r) ++ "_transcription.txt")%string.
Proof.
  intros r Hoff. split.
  - intros token segments. unfold main, with_diarization_setup.
    cbn [file_exists file_extension enable_diarization whisper audio_file clock].
    rewrite Hoff. reflexivity.
  - intros f. unfold main. rewrite Hoff.
    destruct (negb (file_exists r)); [discriminate |].
    destruct (negb (existsb _ SUPPORTED_FORMATS)); [discriminate |].
    destruct (whisper r); [| discriminate].
    intros E. injection E as <-. reflexivity.
Qed.

Lemma plain_run_ignores_diarization_setup_witness :
  main (with_diarization_setup
          (mkRun (mkPath "/recordings" "call" ".wav") true ".wav" false None
                 None (Returned (mkWhisper (Some " Hi.") None)) "now")
          (Some "token") (Some [mkDiar 0 1 "A"]))
  = main (mkRun (mkPath "/recordings" "call" ".wav") true ".wav" false None
                None (Returned (mkWhisper (Some " Hi.") None)) "now").
Proof.
  apply plain_run_ignores_diarization_setup. reflexivity.
Defined.

Lemma save_outputs_shape (audio_path : AudioPath) (now : string)
      (transcription : WhisperResult + string)
      (diarized_segments : option (list AttributedSegment)) :
  let f := save_outputs audio_path now transcription diarized_segments in
  f_dir f = p_parent audio_path
  /\ (f_name f = (p_stem audio_path ++ "_diarized.txt")%string
      /\ (exists seg segs, diarized_segments = Some (seg :: segs))
      \/ f_name f = (p_stem audio_path ++ "_transcription.txt")%string)
  /\ exists body : string,
      f_content f
      = ("TRANSCRIPTION" ++ newline ++ newline
         ++ "Audio File: " ++ p_name audio_path ++ newline
         ++ "Date: " ++ now ++ newline ++ body)%string.
Proof.
  unfold save_outputs.
  destruct diarized_segments as [[| seg segs] |]; cbn [f_dir f_name f_content];
    (split; [reflexivity |]); (split; [| eexists; reflexivity]); eauto.
Qed.

(** X19: the file a run writes lies in the directory of the audio file and
    is named after its stem, with the suffix _diarized.txt or
    _transcription.txt; a diarized file is written only when diarization
    was requested; and the content opens with the title, the name of the
    audio file and the date. *)
Theorem saved_file_name_and_header :
  forall (r : Run) (f : OutputFile),
    main r = Saved f ->
    f_dir f = p_parent (audio_file r)
    /\ (f_name f = (p_stem (audio_file r) ++ "_diarized.txt")%string
        /\ enable_diarization r = true
        \/ f_name f = (p_stem (audio_file r) ++ "_transcription.txt")%string)
    /\ exists body : string,
        f_content f
        = ("TRANSCRIPTION" ++ newline ++ newline
           ++ "Audio File: " ++ p_name (audio_file r) ++ newline
           ++ "Date: " ++ clock r ++ newline ++ body)%string.
Proof.
  intros r f. unfold main.
  destruct (negb (file_exists r)); [discriminate |].
  destruct (negb (existsb _ SUPPORTED_FORMATS)); [discriminate |].
  destruct (enable_diarization r) eqn:Hen.
  - destruct (hf_token r) as [[| c token] |]; try discriminate.
    destruct (diarization r) as [[| seg segs] |]; try discriminate;
      destruct (whisper r) as [w | e]; try discriminate.
    + intros E. injection E as <-.
      destruct (save_outputs_shape (audio_file r) (clock r) (inl w) None)
        as (Hd & Hn & Hc).
      split; [exact Hd |]. split; [| exact Hc].
      destruct Hn as [[Hn _] | Hn]; auto.
    + destruct (merge_transcription_with_diarization w (seg :: segs))
        as [merged | e]; [| discriminate].
      intros E. injection E as <-.
      destruct (save_outputs_shape (audio_file r) (clock r) (inl w)
                                   (Some merged)) as (Hd & Hn & Hc).
      split; [exact Hd |]. split; [| exact Hc].
      destruct Hn as [[Hn _] | Hn]; auto.
  - destruct (whisper r) as [w | e]; [| discriminate].
    intros E. injection E as <-.
    destruct (save_outputs_shape (audio_file r) (clock r) (inl w) None)
      as (Hd & Hn & Hc).
    split; [exact Hd |]. split; [| exact Hc].
    destruct Hn as [[_ (seg & segs & Hs)] | Hn]; [discriminate | auto].
Qed.

Lemma saved_file_name_and_header_witness :
  f_dir (save_outputs (audio_file no_speech_run) (clock no_speech_run)
                      (inl (mkWhisper (Some "") (Some []))) None)
  = p_parent (audio_file no_speech_run).
Proof.
  assert (H : main no_speech_run
              = Saved (save_outputs (audio_file no_speech_run)
                                    (clock no_speech_run)
                                    (inl (mkWhisper (Some "") (Some [])))
                                    None)) by reflexivity.
  exact (proj1 (saved_file_name_and_header _ _ H)).
Defined.

(* ================================================================= *)
(** * The connector token *)

Lemma prefix_app (p rest : string) : String.prefix p (p ++ rest) = true.
Proof.
  induction p as [| a p IH]; [now destruct rest |].
  simpl. destruct (ascii_dec a a); [exact IH | congruence].
Qed.

Lemma prefix_split (p : string) :
  forall s, String.prefix p s = true -> exists rest, s = (p ++ rest)%string.
Proof.
  induction p as [| a p IH]; intros s H.
  - exists s. reflexivity.
  - destruct s as [| b s]; [discriminate |]. simpl in H.
    destruct (ascii_dec a b) as [<- |]; [| discriminate].
    destruct (IH s H) as [rest ->]. now exists rest.
Qed.

Lemma split_once_key (value : string) :
  snd (split_once (TOKEN_KEY ++ value)) = Some value.
Proof. reflexivity. Qed.

Lemma token_loop_skip (pre rest : list string) :
  (forall l, In l pre -> String.prefix TOKEN_KEY (strip l) = false) ->
  token_loop (pre ++ rest) = token_loop rest.
Proof.
  induction pre as [| l pre IH]; intros H; [reflexivity |].
  cbn [app token_loop]. rewrite (H l (or_introl eq_refl)).
  apply IH. intros l' Hl'. apply H. now right.
Qed.

(** X20: the token is read from the first line that, once stripped, starts
    with HUGGINGFACE_API_TOKEN=: it is the rest of that line, stripped;
    lines before it that do not start with the key (comments, other keys,
    an export prefix) and all lines after it are ignored. *)
Theorem get_hf_token_first_match :
  forall (pre post : list string) (line value : string),
    (forall l, In l pre -> String.prefix TOKEN_KEY (strip l) = false) ->
    strip line = (TOKEN_KEY ++ value)%string ->
    get_hf_token (Some (pre ++ line :: post)) = Some (strip value).
Proof.
  intros pre post line value Hpre Hline. cbn [get_hf_token].
  rewrite (token_loop_skip pre _ Hpre). cbn [token_loop].
  now rewrite Hline, prefix_app, split_once_key.
Qed.

Lemma get_hf_token_first_match_witness :
  get_hf_token
    (Some (["# connector"; "export HUGGINGFACE_API_TOKEN=no"]
             ++ "  HUGGINGFACE_API_TOKEN= hf_a=b  " :: ["HUGGINGFACE_API_TOKEN=x"]))
  = Some (strip " hf_a=b").
Proof.
  apply get_hf_token_first_match.
  - intros l [<- | [<- | []]]; reflexivity.
  - reflexivity.
Defined.

(** X21: a token that is returned comes from the file: some line, once
    stripped, is the key followed by a value whose stripped form is the
    token, and the token has no whitespace at either end.  No file, or no
    such line, gives no token. *)
Theorem get_hf_token_origin :
  forall (env_file : option (list string)) (token : string),
    get_hf_token env_file = Some token ->
    exists lines line value,
      env_file = Some lines
      /\ In line lines
      /\ strip line = (TOKEN_KEY ++ value)%string
      /\ token = strip value
      /\ starts_with_space token = false
      /\ ends_with_space token = false.
Proof.
  intros [lines |] token H; [| discriminate]. cbn [get_hf_token] in H.
  exists lines. induction lines as [| l lines IH]; [discriminate |].
  cbn [token_loop] in H.
  destruct (String.prefix TOKEN_KEY (strip l)) eqn:Ep.
  - destruct (prefix_split _ _ Ep) as [value Ev].
    rewrite Ev, split_once_key in H. injection H as <-.
    exists l, value. split; [reflexivity |]. split; [now left |].
    split; [exact Ev |]. split; [reflexivity |].
    destruct (strip_spec value) as (_ & _ & _ & _ & _ & Hs & He). auto.
  - destruct (IH H) as (line & value & _ & Hin & Hrest).
    exists line, value. split; [reflexivity |]. split; [now right | exact Hrest].
Qed.

Lemma get_hf_token_origin_witness :
  exists lines line value,
    Some ["A=1"; "HUGGINGFACE_API_TOKEN=hf_x "] = Some lines
    /\ In line lines
    /\ strip line = (TOKEN_KEY ++ value)%string
    /\ "hf_x" = strip value
    /\ starts_with_space "hf_x" = false
    /\ ends_with_space "hf_x" = false.
Proof.
  apply get_hf_token_origin. reflexivity.
Defined.

(** X22: a token line with a blank value counts as no configuration: when
    the first line with the key has nothing but whitespace after the equals
    sign, a run with [--diarize] that passed the file checks exits with
    status 1 before any model runs. *)
Theorem blank_token_stops_diarized_run :
  forall (r : Run) (pre post : list string) (line : string),
    file_exists r = true ->
    In (file_extension r) SUPPORTED_FORMATS ->
    enable_diarization r = true ->
    hf_token r = get_hf_token (Some (pre ++ line :: post)) ->
    (forall l, In l pre -> String.prefix TOKEN_KEY (strip l) = false) ->
    strip line = TOKEN_KEY ->
    main r = Exit 1.
Proof.
  intros r pre post line Hex Hfmt Hen Htok Hpre Hline.
  assert (E : hf_token r = Some "").
  { rewrite Htok. cbn [get_hf_token].
    rewrite (token_loop_skip pre _ Hpre). cbn [token_loop].
    rewrite Hline. reflexivity. }
  unfold main. rewrite Hex, Hen, E.
  rewrite (proj2 (supported_format_iff _) Hfmt). reflexivity.
Qed.

Lemma blank_token_stops_diarized_run_witness :
  main (mkRun (mkPath "/recordings" "meeting" ".mp3") true ".mp3" true
              (get_hf_token (Some ([] ++ "HUGGINGFACE_API_TOKEN=  " :: [])))
              (Some [mkDiar 0 5 "SPEAKER_00"])
              (Returned (mkWhisper (Some "") (Some [])))
              "2024-01-01 12:00:00")
  = Exit 1.
Proof.
  apply (blank_token_stops_diarized_run _ [] [] "HUGGINGFACE_API_TOKEN=  ").
  - reflexivity.
  - left. reflexivity.
  - reflexivity.
  - reflexivity.
  - intros l [].
  - reflexivity.
Defined.

(* ================================================================= *)
(** * More about the merge *)

Lemma merge_loop_acc (diar : list DiarizationSegment) :
  forall (segs : list TranscriptionSegment) (merged out : list AttributedSegment),
    merge_loop diar [] segs = Returned out ->
    merge_loop diar merged segs = Returned (merged ++ out).
Proof.
  intros segs merged out H.
  destruct (merge_loop_spec diar segs merged) as (out1 & H1 & A1).
  destruct (merge_loop_spec diar segs []) as (out0 & H0 & A0).
  rewrite H0 in H. injection H as <-. rewrite H1. do 2 f_equal.
  clear H0 H1. revert out1 A1.
  induction A0 as [| seg a segs out0 Ha _ IH]; intros out1 A1;
    inversion A1 as [| ? a1 ? out1' Ha1 A1']; subst; [reflexivity |].
  f_equal; [| now apply IH].
  destruct Ha as (Hs & He & Ht & _ & Hr), Ha1 as (Hs1 & He1 & Ht1 & _ & Hr1).
  rewrite Hr in Hr1. injection Hr1 as Hsp.
  destruct a, a1. simpl in *. congruence.
Qed.

Lemma merge_loop_app (diar : list DiarizationSegment) :
  forall (segs1 segs2 : list TranscriptionSegment)
         (merged : list AttributedSegment),
    merge_loop diar merged (segs1 ++ segs2)
    = py_bind (merge_loop diar merged segs1)
              (fun merged' => merge_loop diar merged' segs2).
Proof.
  induction segs1 as [| seg segs1 IH]; intros segs2 merged; [reflexivity |].
  cbn [app merge_loop].
  destruct (merge_step diar merged seg) as [merged' | e]; [apply IH | reflexivity].
Qed.

(** X23: every transcription segment is attributed on its own: merging two
    sequences of Whisper segments one after the other gives the merged
    segments of the first followed by those of the second. *)
Theorem merge_of_concatenation :
  forall (diarization_segments : list DiarizationSegment)
         (text : option string) (segs1 segs2 : list TranscriptionSegment),
  exists merged1 merged2,
    merge_transcription_with_diarization
      (mkWhisper text (Some segs1)) diarization_segments = Returned merged1
    /\ merge_transcription_with_diarization
         (mkWhisper text (Some segs2)) diarization_segments = Returned merged2
    /\ merge_transcription_with_diarization
         (mkWhisper text (Some (segs1 ++ segs2))) diarization_segments
       = Returned (merged1 ++ merged2).
Proof.
  intros diar text segs1 segs2.
  unfold merge_transcription_with_diarization. cbn [whisper_segments w_segments].
  destruct (merge_loop_spec diar segs1 []) as (m1 & H1 & _).
  destruct (merge_loop_spec diar segs2 []) as (m2 & H2 & _).
  exists m1, m2. cbn [app] in *. split; [exact H1 |]. split; [exact H2 |].
  rewrite merge_loop_app, H1. cbn [py_bind].
  now apply merge_loop_acc.
Qed.

Lemma attributed_starts (diar : list DiarizationSegment)
      (segs : list TranscriptionSegment) (merged : list AttributedSegment) :
  Forall2 (attributed diar) segs merged ->
  map a_start merged = map t_start segs.
Proof.
  induction 1 as [| seg a segs merged (Hs & _) _ IH]; [reflexivity |].
  simpl. now rewrite Hs, IH.
Qed.

(** X24: the diarized transcript follows the time order of Whisper: when the
    transcription segments come in ascending start order, so do the merged
    segments and so do the turns formed from them. *)
Theorem merged_turns_in_time_order :
  forall (whisper_result : WhisperResult)
         (diarization_segments : list DiarizationSegment),
    StronglySorted (fun a b => t_start a <= t_start b)
                   (whisper_segments whisper_result) ->
    exists merged,
      merge_transcription_with_diarization whisper_result diarization_segments
      = Returned merged
      /\ map a_start merged = map t_start (whisper_segments whisper_result)
      /\ starts_ascend merged
      /\ starts_ascend (group_segments merged).
Proof.
  intros w diar Hsorted. unfold merge_transcription_with_diarization.
  destruct (merge_loop_spec diar (whisper_segments w) [])
    as (merged & Hm & Hattr).
  exists merged. split; [exact Hm |].
  pose proof (attributed_starts _ _ _ Hattr) as Hstarts.
  split; [exact Hstarts |].
  assert (Hasc : starts_ascend merged).
  { clear Hm. unfold starts_ascend.
    induction Hattr as [| seg a segs merged Ha Hattr IH]; [constructor |].
    apply StronglySorted_inv in Hsorted as [Hsorted Hall].
    simpl in Hstarts. injection Hstarts as Ea Hstarts.
    constructor; [now apply IH |].
    rewrite Forall_forall in *. intros y Hy.
    apply (in_map a_start) in Hy. rewrite Hstarts in Hy.
    apply in_map_iff in Hy as (x & Ex & Hx).
    rewrite Ea, <- Ex. now apply Hall. }
  split; [exact Hasc | now apply group_segments_ascend].
Qed.

Lemma merged_turns_in_time_order_witness :
  exists merged,
    merge_transcription_with_diarization
      (mkWhisper None (Some [mkTrans 0 2 "a"; mkTrans 2 3 "b"]))
      [mkDiar 0 5 "A"]
    = Returned merged
    /\ starts_ascend (group_segments merged).
Proof.
  assert (H : StronglySorted (fun a b => t_start a <= t_start b)
                [mkTrans 0 2 "a"; mkTrans 2 3 "b"]).
  { repeat constructor; discriminate. }
  destruct (merged_turns_in_time_order
              (mkWhisper None (Some [mkTrans 0 2 "a"; mkTrans 2 3 "b"]))
              [mkDiar 0 5 "A"] H) as (merged & Hm & _ & _ & Hg).
  exists merged. split; [exact Hm | exact Hg].
Defined.


